(** * kweeb-logger menubar: the metrics receiver of [menubar/main.go]

    A shallow embedding of the Go program [src/menubar/main.go]: the
    [Metrics] struct and its JSON decoding, the connection reader
    [handleConnection], the accept loop of [startSocketListener], the
    systray callbacks [onReady] / [onExit], [cleanup] and the renderer
    [updateMenuItems], followed by the properties the specification
    states about them.

    The program calls into Go's standard library ([encoding/json], [fmt],
    [strconv], [os], [net]) and into [getlantern/systray].  Those calls
    are modelled here from the documented behaviour of the libraries, for
    the argument types the program uses them at. *)

From Stdlib Require Import ZArith String Ascii List Bool Lia.
From Stdlib Require Import SpecFloat DecimalString DecimalZ.
From stdpp Require Import base gmap list.
Import ListNotations.

Set Warnings "-register-all,-clear-no-such-hyp".

Local Open Scope Z_scope.
Local Open Scope list_scope.

(* ===================================================================== *)
(** * Bytes *)
(* ===================================================================== *)

(** A Go [[]byte] is a [list ascii]; a byte's numeric value is [code]. *)
Abbreviation bytes := (list ascii).

Definition code (c : ascii) : Z := Z.of_N (N_of_ascii c).
Definition chr (z : Z) : ascii := ascii_of_N (Z.to_N z).

Definition isByte (lo hi : Z) (c : ascii) : bool :=
  (lo <=? code c) && (code c <=? hi).

(** The double quote, written by its code. *)
Definition dquote : ascii := chr 34.

(** Test messages are written with an apostrophe where JSON has a double
    quote; [dq] puts the quotes back. *)
Definition dq (s : string) : string :=
  string_of_list_ascii
    (List.map (fun c => if code c =? 39 then dquote else c)
              (list_ascii_of_string s)).

(* ===================================================================== *)
(** * encoding/json: the scanner *)
(* ===================================================================== *)

Module Json.

(** A JSON number literal, kept as written:
    [-]? int [. frac]? [(e|E) [+-]? exp]?
    [nl_fraclen] is the number of digits after the point (0 when the
    literal has no fraction part, for the grammar wants one digit at
    least after a point); [nl_exp] is the signed exponent, when there is
    one. *)
Record numlit : Type := NumLit {
  nl_neg : bool;
  nl_int : Z;
  nl_frac : Z;
  nl_fraclen : Z;
  nl_exp : option Z
}.

Inductive json : Type :=
| JNull
| JBool (b : bool)
| JNumber (n : numlit)
| JString (s : string)
| JArray (elems : list json)
| JObject (members : list (string * json)).

Inductive token : Type :=
| TBeginObject | TEndObject | TBeginArray | TEndArray
| TColon | TComma
| TString (s : string)
| TNumber (n : numlit)
| TTrue | TFalse | TNull.

(** ** Character classes of scanner.go *)

Definition isSpace (c : ascii) : bool :=
  let k := code c in (k =? 32) || (k =? 9) || (k =? 13) || (k =? 10).

Definition isDigit (c : ascii) : bool := isByte 48 57 c.
Definition digitVal (c : ascii) : Z := code c - 48.

Definition isHex (c : ascii) : bool :=
  isDigit c || isByte 97 102 c || isByte 65 70 c.

Definition hexVal (c : ascii) : Z :=
  if isDigit c then code c - 48
  else if isByte 97 102 c then code c - 97 + 10
  else code c - 65 + 10.

(** ** UTF-8, as [unicode/utf8] has it *)

Definition RuneError : Z := 65533.

Definition isCont (c : ascii) : bool := isByte 128 191 c.

(** [utf8.DecodeRune]: the rune at the head of [s] and its width; an
    ill-formed head gives [(RuneError, 1)]. *)
Definition decodeRune (s : bytes) : Z * nat :=
  match s with
  | [] => (RuneError, 0%nat)
  | b0 :: t =>
    let k0 := code b0 in
    if k0 <? 128 then (k0, 1%nat)
    else if isByte 194 223 b0 then
      match t with
      | b1 :: _ =>
        if isCont b1 then ((k0 - 192) * 64 + (code b1 - 128), 2%nat)
        else (RuneError, 1%nat)
      | _ => (RuneError, 1%nat)
      end
    else if isByte 224 239 b0 then
      match t with
      | b1 :: b2 :: _ =>
        let lo := if k0 =? 224 then 160 else 128 in
        let hi := if k0 =? 237 then 159 else 191 in
        if isByte lo hi b1 && isCont b2
        then ((k0 - 224) * 4096 + (code b1 - 128) * 64 + (code b2 - 128), 3%nat)
        else (RuneError, 1%nat)
      | _ => (RuneError, 1%nat)
      end
    else if isByte 240 244 b0 then
      match t with
      | b1 :: b2 :: b3 :: _ =>
        let lo := if k0 =? 240 then 144 else 128 in
        let hi := if k0 =? 244 then 143 else 191 in
        if isByte lo hi b1 && isCont b2 && isCont b3
        then ((k0 - 240) * 262144 + (code b1 - 128) * 4096
              + (code b2 - 128) * 64 + (code b3 - 128), 4%nat)
        else (RuneError, 1%nat)
      | _ => (RuneError, 1%nat)
      end
    else (RuneError, 1%nat)
  end.

Definition isSurrogate (r : Z) : bool := (55296 <=? r) && (r <? 57344).

(** [utf8.AppendRune]: surrogates and values past U+10FFFF are written as
    U+FFFD. *)
Definition encodeRune (r : Z) : bytes :=
  let r := if (r <? 0) || (1114111 <? r) || isSurrogate r then RuneError else r in
  if r <? 128 then [chr r]
  else if r <? 2048 then [chr (192 + r / 64); chr (128 + r mod 64)]
  else if r <? 65536 then
    [chr (224 + r / 4096); chr (128 + (r / 64) mod 64); chr (128 + r mod 64)]
  else
    [chr (240 + r / 262144); chr (128 + (r / 4096) mod 64);
     chr (128 + (r / 64) mod 64); chr (128 + r mod 64)].

(** [utf16.DecodeRune]: a high and a low surrogate make one rune;
    anything else is U+FFFD. *)
Definition decodeSurrogates (r1 r2 : Z) : Z :=
  if (55296 <=? r1) && (r1 <? 56320) && (56320 <=? r2) && (r2 <? 57344)
  then (r1 - 55296) * 1024 + (r2 - 56320) + 65536
  else RuneError.

Definition u4 (h1 h2 h3 h4 : ascii) : Z :=
  ((hexVal h1 * 16 + hexVal h2) * 16 + hexVal h3) * 16 + hexVal h4.

Definition isU4 (h1 h2 h3 h4 : ascii) : bool :=
  isHex h1 && isHex h2 && isHex h3 && isHex h4.

(** The byte an escape letter stands for ([unquoteBytes]). *)
Definition escapeByte (c : ascii) : option ascii :=
  let k := code c in
  if (k =? 34) || (k =? 92) || (k =? 47) then Some c
  else if k =? 98 then Some (chr 8)
  else if k =? 102 then Some (chr 12)
  else if k =? 110 then Some (chr 10)
  else if k =? 114 then Some (chr 13)
  else if k =? 116 then Some (chr 9)
  else None.

(** [unquoteBytes]: the bytes a string literal stands for, given what
    stands between its quotes.  The scanner has checked the escapes
    before; the branches it excludes stop the copy. *)
Fixpoint unquote (s : bytes) : bytes :=
  match s with
  | [] => []
  | c :: t =>
    if code c =? 92 then
      match t with
      | [] => []
      | e :: t1 =>
        if code e =? 117 then
          match t1 with
          | h1 :: h2 :: h3 :: h4 :: t2 =>
            let r := u4 h1 h2 h3 h4 in
            if isSurrogate r then
              match t2 with
              | b :: u :: g1 :: g2 :: g3 :: g4 :: t3 =>
                let r' := decodeSurrogates r (u4 g1 g2 g3 g4) in
                if (code b =? 92) && (code u =? 117) && isU4 g1 g2 g3 g4
                   && negb (r' =? RuneError)
                then encodeRune r' ++ unquote t3
                else encodeRune RuneError ++ unquote t2
              | _ => encodeRune RuneError ++ unquote t2
              end
            else encodeRune r ++ unquote t2
          | _ => []
          end
        else
          match escapeByte e with
          | Some b => b :: unquote t1
          | None => []
          end
      end
    else if code c <? 128 then c :: unquote t
    else
      (* coerce to well-formed UTF-8 *)
      let '(r, n) := decodeRune s in
      match n, t with
      | 2%nat, _ :: t2 => encodeRune r ++ unquote t2
      | 3%nat, _ :: _ :: t3 => encodeRune r ++ unquote t3
      | 4%nat, _ :: _ :: _ :: t4 => encodeRune r ++ unquote t4
      | _, _ => encodeRune r ++ unquote t
      end
  end.

(** ** The scanner's states

    scanner.go steps through the input a byte at a time.  Between two
    tokens it is in [LStart]; the other modes are inside a string, a
    number or one of the three literal words. *)

Inductive strstate : Type :=
| SsPlain            (* stateInString *)
| SsEsc              (* stateInStringEsc *)
| SsU (left : nat).  (* stateInStringEscU..U123: hex digits still due *)

Inductive numstate : Type :=
| NsNeg | Ns0 | Ns1 | NsDot | NsDot0 | NsE
| NsESign (eneg : bool)
| NsE0 (eneg : bool).

Inductive lexmode : Type :=
| LStart
| LString (raw_rev : bytes) (st : strstate)
| LNumber (st : numstate) (n : numlit)
| LLiteral (rest : bytes) (t : token).

Definition numStart (neg : bool) (i : Z) : numlit :=
  {| nl_neg := neg; nl_int := i; nl_frac := 0; nl_fraclen := 0; nl_exp := None |}.

(** A byte that begins a token (or is white space). *)
Definition lexStart (c : ascii) : option (list token * lexmode) :=
  let k := code c in
  if isSpace c then Some ([], LStart)
  else if k =? 123 then Some ([TBeginObject], LStart)
  else if k =? 125 then Some ([TEndObject], LStart)
  else if k =? 91 then Some ([TBeginArray], LStart)
  else if k =? 93 then Some ([TEndArray], LStart)
  else if k =? 58 then Some ([TColon], LStart)
  else if k =? 44 then Some ([TComma], LStart)
  else if k =? 34 then Some ([], LString [] SsPlain)
  else if k =? 45 then Some ([], LNumber NsNeg (numStart true 0))
  else if k =? 48 then Some ([], LNumber Ns0 (numStart false 0))
  else if isByte 49 57 c then Some ([], LNumber Ns1 (numStart false (digitVal c)))
  else if k =? 116 then Some ([], LLiteral (list_ascii_of_string "rue") TTrue)
  else if k =? 102 then Some ([], LLiteral (list_ascii_of_string "alse") TFalse)
  else if k =? 110 then Some ([], LLiteral (list_ascii_of_string "ull") TNull)
  else None.

Definition isE (c : ascii) : bool := (code c =? 101) || (code c =? 69).

Definition withInt (n : numlit) (i : Z) : numlit :=
  {| nl_neg := nl_neg n; nl_int := i; nl_frac := nl_frac n;
     nl_fraclen := nl_fraclen n; nl_exp := nl_exp n |}.

Definition withFracDigit (n : numlit) (d : Z) : numlit :=
  {| nl_neg := nl_neg n; nl_int := nl_int n; nl_frac := nl_frac n * 10 + d;
     nl_fraclen := nl_fraclen n + 1; nl_exp := nl_exp n |}.

Definition withExp (n : numlit) (e : Z) : numlit :=
  {| nl_neg := nl_neg n; nl_int := nl_int n; nl_frac := nl_frac n;
     nl_fraclen := nl_fraclen n; nl_exp := Some e |}.

Definition expDigit (eneg : bool) (n : numlit) (d : Z) : numlit :=
  let e := match nl_exp n with Some e => e | None => 0 end in
  withExp n (e * 10 + (if eneg then - d else d)).

(** In which states a number may end (state0, state1, stateDot0,
    stateE0). *)
Definition numMayEnd (st : numstate) : bool :=
  match st with
  | Ns0 | Ns1 | NsDot0 | NsE0 _ => true
  | _ => false
  end.

(** One byte inside a number: [Some (Some _)] goes on with the number,
    [Some None] says that the number ended before [c], [None] is a syntax
    error. *)
Definition lexNumber (st : numstate) (n : numlit) (c : ascii)
  : option (option (numstate * numlit)) :=
  match st with
  | NsNeg =>
    if code c =? 48 then Some (Some (Ns0, n))
    else if isByte 49 57 c then Some (Some (Ns1, withInt n (digitVal c)))
    else None
  | Ns1 =>
    if isDigit c then Some (Some (Ns1, withInt n (nl_int n * 10 + digitVal c)))
    else if code c =? 46 then Some (Some (NsDot, n))
    else if isE c then Some (Some (NsE, n))
    else Some None
  | Ns0 =>
    if code c =? 46 then Some (Some (NsDot, n))
    else if isE c then Some (Some (NsE, n))
    else Some None
  | NsDot =>
    if isDigit c then Some (Some (NsDot0, withFracDigit n (digitVal c)))
    else None
  | NsDot0 =>
    if isDigit c then Some (Some (NsDot0, withFracDigit n (digitVal c)))
    else if isE c then Some (Some (NsE, n))
    else Some None
  | NsE =>
    if code c =? 43 then Some (Some (NsESign false, n))
    else if code c =? 45 then Some (Some (NsESign true, n))
    else if isDigit c then Some (Some (NsE0 false, expDigit false n (digitVal c)))
    else None
  | NsESign eneg =>
    if isDigit c then Some (Some (NsE0 eneg, expDigit eneg n (digitVal c)))
    else None
  | NsE0 eneg =>
    if isDigit c then Some (Some (NsE0 eneg, expDigit eneg n (digitVal c)))
    else Some None
  end.

Definition lexString (raw_rev : bytes) (st : strstate) (c : ascii)
  : option (list token * lexmode) :=
  match st with
  | SsPlain =>
    if code c =? 34
    then Some ([TString (string_of_list_ascii (unquote (rev raw_rev)))], LStart)
    else if code c =? 92 then Some ([], LString (c :: raw_rev) SsEsc)
    else if code c <? 32 then None
    else Some ([], LString (c :: raw_rev) SsPlain)
  | SsEsc =>
    if code c =? 117 then Some ([], LString (c :: raw_rev) (SsU 4))
    else match escapeByte c with
         | Some _ => Some ([], LString (c :: raw_rev) SsPlain)
         | None => None
         end
  | SsU k =>
    if isHex c
    then Some ([], LString (c :: raw_rev)
                     (match k with
                      | S (S k') => SsU (S k')
                      | _ => SsPlain
                      end))
    else None
  end.

(** One step of the scanner: the tokens that [c] completes, oldest
    first, and the mode after [c]. *)
Definition lexByte (m : lexmode) (c : ascii) : option (list token * lexmode) :=
  match m with
  | LStart => lexStart c
  | LString raw_rev st => lexString raw_rev st c
  | LNumber st n =>
    match lexNumber st n c with
    | None => None
    | Some (Some (st', n')) => Some ([], LNumber st' n')
    | Some None =>
      match lexStart c with
      | Some (ts, m') => Some (TNumber n :: ts, m')
      | None => None
      end
    end
  | LLiteral rest t =>
    match rest with
    | [] => None
    | x :: rest' =>
      if code c =? code x
      then match rest' with
           | [] => Some ([t], LStart)
           | _ => Some ([], LLiteral rest' t)
           end
      else None
    end
  end.

Fixpoint lex (m : lexmode) (acc_rev : list token) (s : bytes)
  : option (list token) :=
  match s with
  | [] =>
    match m with
    | LStart => Some (rev acc_rev)
    | LNumber st n =>
      if numMayEnd st then Some (rev (TNumber n :: acc_rev)) else None
    | _ => None
    end
  | c :: rest =>
    match lexByte m c with
    | None => None
    | Some (ts, m') => lex m' (rev ts ++ acc_rev) rest
    end
  end.

(** ** The grammar, over the tokens

    A pushdown machine: [frame]s are the containers that are open, the
    state says what may come next. *)

Inductive frame : Type :=
| FArr (elems_rev : list json)
| FObj (members_rev : list (string * json)) (key : string).

Inductive pstate : Type :=
| PValue (stk : list frame)
| PArrFirst (stk : list frame)
| PObjFirst (stk : list frame)
| PKey (stk : list frame) (members_rev : list (string * json))
| PColon (stk : list frame) (members_rev : list (string * json)) (key : string)
| PArrNext (stk : list frame) (elems_rev : list json)
| PObjNext (stk : list frame) (members_rev : list (string * json))
| PDone (v : json).

(** A value is complete: it goes into the innermost open container. *)
Definition reduce (stk : list frame) (v : json) : pstate :=
  match stk with
  | [] => PDone v
  | FArr es :: stk' => PArrNext stk' (v :: es)
  | FObj ms k :: stk' => PObjNext stk' ((k, v) :: ms)
  end.

Definition pValue (stk : list frame) (t : token) : option pstate :=
  match t with
  | TNull => Some (reduce stk JNull)
  | TTrue => Some (reduce stk (JBool true))
  | TFalse => Some (reduce stk (JBool false))
  | TNumber n => Some (reduce stk (JNumber n))
  | TString s => Some (reduce stk (JString s))
  | TBeginArray => Some (PArrFirst stk)
  | TBeginObject => Some (PObjFirst stk)
  | _ => None
  end.

Definition pstep (p : pstate) (t : token) : option pstate :=
  match p with
  | PValue stk => pValue stk t
  | PArrFirst stk =>
    match t with
    | TEndArray => Some (reduce stk (JArray []))
    | _ => pValue (FArr [] :: stk) t
    end
  | PObjFirst stk =>
    match t with
    | TEndObject => Some (reduce stk (JObject []))
    | TString k => Some (PColon stk [] k)
    | _ => None
    end
  | PKey stk ms =>
    match t with
    | TString k => Some (PColon stk ms k)
    | _ => None
    end
  | PColon stk ms k =>
    match t with
    | TColon => Some (PValue (FObj ms k :: stk))
    | _ => None
    end
  | PArrNext stk es =>
    match t with
    | TComma => Some (PValue (FArr es :: stk))
    | TEndArray => Some (reduce stk (JArray (rev es)))
    | _ => None
    end
  | PObjNext stk ms =>
    match t with
    | TComma => Some (PKey stk ms)
    | TEndObject => Some (reduce stk (JObject (rev ms)))
    | _ => None
    end
  | PDone _ => None
  end.

Fixpoint pparse (p : pstate) (ts : list token) : option json :=
  match ts with
  | [] => match p with PDone v => Some v | _ => None end
  | t :: ts' =>
    match pstep p t with
    | Some p' => pparse p' ts'
    | None => None
    end
  end.

(** The JSON value a message holds, [None] if its syntax is wrong
    (where [checkValid] gives a [SyntaxError]). *)
Definition parse (data : string) : option json :=
  match lex LStart [] (list_ascii_of_string data) with
  | Some ts => pparse (PValue []) ts
  | None => None
  end.

End Json.

(* ===================================================================== *)
(** * strconv: numbers from their literals *)
(* ===================================================================== *)

Module Strconv.
Import Json.

(** Go's [int] is taken at 64 bits (the program is a macOS menu bar
    application; [int] has 64 bits on every 64-bit platform). *)
Definition minInt : Z := - 2 ^ 63.
Definition maxInt : Z := 2 ^ 63 - 1.

(** [strconv.ParseInt(s, 10, 64)] on a JSON number literal: the literal
    must be an optional sign and digits, nothing else, and the value must
    fit. *)
Definition parseInt (n : numlit) : option Z :=
  match nl_exp n with
  | Some _ => None
  | None =>
    if 0 <? nl_fraclen n then None
    else
      let v := if nl_neg n then - nl_int n else nl_int n in
      if (minInt <=? v) && (v <=? maxInt) then Some v else None
  end.

(** An IEEE 754 binary64 number, in the representation of the standard
    library's specification of floating-point arithmetic. *)
Abbreviation float64 := spec_float.

Definition prec64 : Z := 53.
Definition emax64 : Z := 1024.

Definition isFinite (f : float64) : bool :=
  match f with
  | S754_zero _ | S754_finite _ _ _ => true
  | _ => false
  end.

(** The binary64 number nearest to [(-1)^neg * m * 10^e], ties to even. *)
Definition roundDecimal (neg : bool) (m e : Z) : float64 :=
  match m with
  | Zpos p =>
    if 0 <=? e
    then binary_round prec64 emax64 neg (p * Z.to_pos (10 ^ e)) 0
    else
      let '(q, e', l) :=
        SFdiv_core_binary prec64 emax64 (Zpos p) 0 (10 ^ (- e)) 0 in
      binary_round_aux prec64 emax64 neg q e' l
  | _ => S754_zero neg
  end.

(** [strconv.ParseFloat(s, 64)] on a JSON number literal: the nearest
    binary64 number; a literal too large for a finite one is a range
    error. *)
Definition parseFloat (n : numlit) : option float64 :=
  let m := nl_int n * 10 ^ nl_fraclen n + nl_frac n in
  let e := match nl_exp n with Some e => e | None => 0 end - nl_fraclen n in
  let f := roundDecimal (nl_neg n) m e in
  if isFinite f then Some f else None.

End Strconv.

(* ===================================================================== *)
(** * The Metrics struct and its decoding *)
(* ===================================================================== *)

Import Json Strconv.

(** main.go, lines 13-19. *)
Record Metrics : Type := mkMetrics {
  Keypresses : Z;
  MouseClicks : Z;
  MouseDistanceIn : float64;
  MouseDistanceMi : float64;
  ScrollSteps : Z
}.

(** The zero value, what [var metrics Metrics] declares. *)
Definition zeroFloat : float64 := S754_zero false.
Definition zeroMetrics : Metrics := mkMetrics 0 0 zeroFloat zeroFloat 0.

Inductive field : Type :=
| FKeypresses | FMouseClicks | FMouseDistanceIn | FMouseDistanceMi | FScrollSteps.

Definition fields : list field :=
  [FKeypresses; FMouseClicks; FMouseDistanceIn; FMouseDistanceMi; FScrollSteps].

(** The names of the json tags. *)
Definition fieldName (f : field) : string :=
  match f with
  | FKeypresses => "keypresses"
  | FMouseClicks => "mouse_clicks"
  | FMouseDistanceIn => "mouse_distance_in"
  | FMouseDistanceMi => "mouse_distance_mi"
  | FScrollSteps => "scroll_steps"
  end.

Module Decode.

(** The kind of JSON value that did not fit, as [UnmarshalTypeError]
    names it in its [Value]. *)
Inductive jkind : Type := KBool | KString | KNumber | KArray | KObject.

Inductive DecodeError : Type :=
| SyntaxError
| UnmarshalTypeError (k : jkind) (target : option field).

(** [foldName] of encoding/json: names are compared after folding the
    case.  ASCII letters go to upper case; of the other runes, the Kelvin
    sign U+212A (bytes E2 84 AA) folds to K and the long s U+017F (bytes
    C5 BF) to S.  Every other rune folds to a rune outside ASCII, and is
    left as it is here: that changes no comparison with a field name of
    the struct, which are all ASCII. *)
Fixpoint foldName (s : bytes) : bytes :=
  match s with
  | [] => []
  | c :: t =>
    if isByte 97 122 c then chr (code c - 32) :: foldName t
    else
      match t with
      | c1 :: ((c2 :: t2) as t1) =>
        if (code c =? 226) && (code c1 =? 132) && (code c2 =? 170)
        then chr 75 :: foldName t2
        else if (code c =? 197) && (code c1 =? 191)
        then chr 83 :: foldName t1
        else c :: foldName t
      | [c1] =>
        if (code c =? 197) && (code c1 =? 191) then [chr 83]
        else c :: foldName t
      | [] => [c]
      end
  end.

Definition foldString (s : string) : string :=
  string_of_list_ascii (foldName (list_ascii_of_string s)).

(** The field an object key stands for: the one with this very name, or
    else the one whose name is the same up to case. *)
Definition findField (key : string) : option field :=
  match List.find (fun f => String.eqb (fieldName f) key) fields with
  | Some f => Some f
  | None =>
    List.find (fun f => String.eqb (foldString (fieldName f)) (foldString key))
              fields
  end.

Definition kindOf (v : json) : option jkind :=
  match v with
  | JNull => None
  | JBool _ => Some KBool
  | JString _ => Some KString
  | JNumber _ => Some KNumber
  | JArray _ => Some KArray
  | JObject _ => Some KObject
  end.

Definition setInt (f : field) (z : Z) (m : Metrics) : Metrics :=
  match f with
  | FKeypresses =>
    mkMetrics z (MouseClicks m) (MouseDistanceIn m) (MouseDistanceMi m) (ScrollSteps m)
  | FMouseClicks =>
    mkMetrics (Keypresses m) z (MouseDistanceIn m) (MouseDistanceMi m) (ScrollSteps m)
  | FScrollSteps =>
    mkMetrics (Keypresses m) (MouseClicks m) (MouseDistanceIn m) (MouseDistanceMi m) z
  | _ => m
  end.

Definition setFloat (f : field) (x : float64) (m : Metrics) : Metrics :=
  match f with
  | FMouseDistanceIn =>
    mkMetrics (Keypresses m) (MouseClicks m) x (MouseDistanceMi m) (ScrollSteps m)
  | FMouseDistanceMi =>
    mkMetrics (Keypresses m) (MouseClicks m) (MouseDistanceIn m) x (ScrollSteps m)
  | _ => m
  end.

Definition isFloatField (f : field) : bool :=
  match f with
  | FMouseDistanceIn | FMouseDistanceMi => true
  | _ => false
  end.

(** Storing one JSON value into one field ([literalStore], and [array] /
    [object] for a container): [null] leaves a number as it is; a number
    literal is converted for the type of the field; anything else, and a
    literal that does not convert, is an [UnmarshalTypeError] and leaves
    the field as it is. *)
Definition store (f : field) (v : json) (m : Metrics)
  : Metrics * option DecodeError :=
  match v with
  | JNull => (m, None)
  | JNumber n =>
    if isFloatField f then
      match parseFloat n with
      | Some x => (setFloat f x m, None)
      | None => (m, Some (UnmarshalTypeError KNumber (Some f)))
      end
    else
      match parseInt n with
      | Some z => (setInt f z m, None)
      | None => (m, Some (UnmarshalTypeError KNumber (Some f)))
      end
  | JBool _ => (m, Some (UnmarshalTypeError KBool (Some f)))
  | JString _ => (m, Some (UnmarshalTypeError KString (Some f)))
  | JArray _ => (m, Some (UnmarshalTypeError KArray (Some f)))
  | JObject _ => (m, Some (UnmarshalTypeError KObject (Some f)))
  end.

(** [saveError]: the first error is the one that is kept. *)
Definition saveError (saved new : option DecodeError) : option DecodeError :=
  match saved with
  | Some e => Some e
  | None => new
  end.

(** The members of an object, in the order of the message.  A key that
    stands for no field is skipped with its value; after an error the
    decoding goes on with the next member. *)
Fixpoint object (members : list (string * json)) (m : Metrics)
                (saved : option DecodeError)
  : Metrics * option DecodeError :=
  match members with
  | [] => (m, saved)
  | (key, v) :: rest =>
    match findField key with
    | None => object rest m saved
    | Some f =>
      let '(m', err) := store f v m in
      object rest m' (saveError saved err)
    end
  end.

(** A value decoded into the struct. *)
Definition value (v : json) (m : Metrics) : Metrics * option DecodeError :=
  match v with
  | JObject members => object members m None
  | JNull => (m, None)
  | JBool _ => (m, Some (UnmarshalTypeError KBool None))
  | JString _ => (m, Some (UnmarshalTypeError KString None))
  | JNumber _ => (m, Some (UnmarshalTypeError KNumber None))
  | JArray _ => (m, Some (UnmarshalTypeError KArray None))
  end.

(** [json.Unmarshal(data, &metrics)]: the struct after the call and the
    error returned.  A message with a syntax error leaves the struct
    untouched. *)
Definition Unmarshal (data : string) (m : Metrics)
  : Metrics * option DecodeError :=
  match parse data with
  | None => (m, Some SyntaxError)
  | Some v => value v m
  end.

End Decode.

(* ===================================================================== *)
(** * fmt: the verbs of the menu titles *)
(* ===================================================================== *)

Module Fmt.

Definition digitChar (d : Z) : ascii := chr (48 + d).

(** The verb d on an [int]: the decimal digits, after a minus sign for a
    negative number (the standard library's printer of integers). *)
Definition formatInt (z : Z) : string :=
  NilZero.string_of_int (Z.to_int z).

(** [m * 2^e] in hundredths, rounded to the nearest integer, ties to
    even: the digits that the verb .2f prints (strconv formats the exact
    decimal expansion and rounds it so). *)
Definition hundredths (m : positive) (e : Z) : Z :=
  if 0 <=? e then Zpos m * 2 ^ e * 100
  else
    let num := Zpos m * 100 in
    let den := 2 ^ (- e) in
    let q := num / den in
    let r := num mod den in
    if 2 * r <? den then q
    else if den <? 2 * r then q + 1
    else if Z.even q then q else q + 1.

(** Hundredths as text: integer part, point, two digits. *)
Definition fixed2 (n : Z) : string :=
  formatInt (n / 100)
  ++ String (chr 46)
       (String (digitChar ((n / 10) mod 10))
          (String (digitChar (n mod 10)) EmptyString)).

(** The verb .2f on a [float64]. *)
Definition formatFloat2 (f : float64) : string :=
  match f with
  | S754_nan => "NaN"
  | S754_infinity s => if s then "-Inf" else "+Inf"
  | S754_zero s => (if s then "-" else "") ++ fixed2 0
  | S754_finite s m e => (if s then "-" else "") ++ fixed2 (hundredths m e)
  end%string.

End Fmt.

(* ===================================================================== *)
(** * The process and what surrounds it *)
(* ===================================================================== *)

Import Decode Fmt.

(** The errors of the operating system that the program can meet. *)
Inductive OSError : Type :=
| ErrNotExist      (* no such file or directory *)
| ErrPermission    (* the operation is not permitted *)
| ErrAddrInUse     (* bind: address already in use *)
| ErrClosed        (* use of closed network connection *)
| EOF              (* the peer closed the connection *)
| ErrIO.           (* any other failure of a read or an accept *)

(** [os.IsNotExist]. *)
Definition IsNotExist (e : OSError) : bool :=
  match e with ErrNotExist => true | _ => false end.

(** What is at the path [sockAddr]: nothing, or an entry, that this
    process can remove or cannot (an entry that belongs to another user
    in a sticky directory, a directory that is not empty). *)
Inductive fsentry : Type :=
| NoEntry
| Entry (removable : bool).

(** A [net.Listener], once created: bound and listening, or closed. *)
Inductive lnstate : Type := Listening | Closed.

(** An entry of the systray menu. *)
Inductive entry : Type :=
| Item (title tooltip : string)
| Separator.

(** The goroutine of [startSocketListener]: not started, started by the
    [go] statement, or in its accept loop. *)
Inductive task : Type := NotStarted | Spawned | Accepting.

(** The lines that the program logs, one constructor for each call of
    the log package in main.go. *)
Inductive LogLine : Type :=
| LogStarting                          (* line 33 *)
| LogFatalRemove (e : OSError)         (* line 36, log.Fatalf *)
| LogStartingSystray                   (* line 39 *)
| LogCreatingSocket                    (* line 45 *)
| LogFatalListen (e : OSError)         (* line 49, log.Fatalf *)
| LogSocketCreated                     (* line 52 *)
| LogAcceptError (e : OSError)         (* line 57 *)
| LogClientConnected                   (* line 60 *)
| LogReadError (e : OSError)           (* line 83 *)
| LogUnmarshalError (e : DecodeError)  (* line 89 *)
| LogReceived (m : Metrics)            (* line 93 *)
| LogOnReadyCalled                     (* line 99 *)
| LogQuitClicked                       (* line 113 *)
| LogOnReadyCompleted                  (* line 119 *)
| LogOnExitCalled                      (* line 124 *)
| LogCleaningUp                        (* line 129 *)
| LogNotInitialized                    (* line 138 *)
| LogItemsNil.                         (* line 143 *)

(** The state of the process and of the part of the system it acts on.
    A nil pointer, and the nil interface value of [listener], is [None].
    The variable [listener] is the only reference to the only listener
    the program ever creates, so the state of the listener is kept in
    the variable. *)
Record World : Type := mkWorld {
  (* the package-level variables, main.go lines 21-30 *)
  mKeyPresses : option nat;
  mMouseClicks : option nat;
  mMouseDistance : option nat;
  mScrollSteps : option nat;
  listener : option lnstate;
  isMenuInitialized : bool;
  (* systray: the entries of the menu, oldest first, and the tray icon *)
  menu : list entry;
  trayTitle : string;
  trayTooltip : string;
  (* the operating system: what is at sockAddr, and whether it lets this
     process bind a socket there *)
  sockFile : fsentry;
  bindPermitted : bool;
  (* the goroutines: the one of startSocketListener, the connections that
     have a handleConnection reading them, the next connection *)
  acceptor : task;
  readers : gset nat;
  nextConn : nat;
  (* systray's own goroutine: the next statement of onReady, the local
     variable mQuit of onReady, whether the goroutine that waits for a
     click on it runs, whether systray.Quit was called *)
  readyPc : nat;
  mQuit : option nat;
  quitWatcher : bool;
  quitRequested : bool;
  (* what the log package has written, oldest line first *)
  logs : list LogLine
}.

Definition set_mKeyPresses (v : option nat) (w : World) : World :=
  mkWorld v (mMouseClicks w) (mMouseDistance w) (mScrollSteps w)
    (listener w) (isMenuInitialized w) (menu w) (trayTitle w)
    (trayTooltip w) (sockFile w) (bindPermitted w) (acceptor w) (readers w)
    (nextConn w) (readyPc w) (mQuit w) (quitWatcher w) (quitRequested w)
    (logs w).

Definition set_mMouseClicks (v : option nat) (w : World) : World :=
  mkWorld (mKeyPresses w) v (mMouseDistance w) (mScrollSteps w) (listener w)
    (isMenuInitialized w) (menu w) (trayTitle w) (trayTooltip w)
    (sockFile w) (bindPermitted w) (acceptor w) (readers w) (nextConn w)
    (readyPc w) (mQuit w) (quitWatcher w) (quitRequested w) (logs w).

Definition set_mMouseDistance (v : option nat) (w : World) : World :=
  mkWorld (mKeyPresses w) (mMouseClicks w) v (mScrollSteps w) (listener w)
    (isMenuInitialized w) (menu w) (trayTitle w) (trayTooltip w)
    (sockFile w) (bindPermitted w) (acceptor w) (readers w) (nextConn w)
    (readyPc w) (mQuit w) (quitWatcher w) (quitRequested w) (logs w).

Definition set_mScrollSteps (v : option nat) (w : World) : World :=
  mkWorld (mKeyPresses w) (mMouseClicks w) (mMouseDistance w) v (listener w)
    (isMenuInitialized w) (menu w) (trayTitle w) (trayTooltip w)
    (sockFile w) (bindPermitted w) (acceptor w) (readers w) (nextConn w)
    (readyPc w) (mQuit w) (quitWatcher w) (quitRequested w) (logs w).

Definition set_listener (v : option lnstate) (w : World) : World :=
  mkWorld (mKeyPresses w) (mMouseClicks w) (mMouseDistance w)
    (mScrollSteps w) v (isMenuInitialized w) (menu w) (trayTitle w)
    (trayTooltip w) (sockFile w) (bindPermitted w) (acceptor w) (readers w)
    (nextConn w) (readyPc w) (mQuit w) (quitWatcher w) (quitRequested w)
    (logs w).

Definition set_isMenuInitialized (v : bool) (w : World) : World :=
  mkWorld (mKeyPresses w) (mMouseClicks w) (mMouseDistance w)
    (mScrollSteps w) (listener w) v (menu w) (trayTitle w) (trayTooltip w)
    (sockFile w) (bindPermitted w) (acceptor w) (readers w) (nextConn w)
    (readyPc w) (mQuit w) (quitWatcher w) (quitRequested w) (logs w).

Definition set_menu (v : list entry) (w : World) : World :=
  mkWorld (mKeyPresses w) (mMouseClicks w) (mMouseDistance w)
    (mScrollSteps w) (listener w) (isMenuInitialized w) v (trayTitle w)
    (trayTooltip w) (sockFile w) (bindPermitted w) (acceptor w) (readers w)
    (nextConn w) (readyPc w) (mQuit w) (quitWatcher w) (quitRequested w)
    (logs w).

Definition set_trayTitle (v : string) (w : World) : World :=
  mkWorld (mKeyPresses w) (mMouseClicks w) (mMouseDistance w)
    (mScrollSteps w) (listener w) (isMenuInitialized w) (menu w) v
    (trayTooltip w) (sockFile w) (bindPermitted w) (acceptor w) (readers w)
    (nextConn w) (readyPc w) (mQuit w) (quitWatcher w) (quitRequested w)
    (logs w).

Definition set_trayTooltip (v : string) (w : World) : World :=
  mkWorld (mKeyPresses w) (mMouseClicks w) (mMouseDistance w)
    (mScrollSteps w) (listener w) (isMenuInitialized w) (menu w)
    (trayTitle w) v (sockFile w) (bindPermitted w) (acceptor w) (readers w)
    (nextConn w) (readyPc w) (mQuit w) (quitWatcher w) (quitRequested w)
    (logs w).

Definition set_sockFile (v : fsentry) (w : World) : World :=
  mkWorld (mKeyPresses w) (mMouseClicks w) (mMouseDistance w)
    (mScrollSteps w) (listener w) (isMenuInitialized w) (menu w)
    (trayTitle w) (trayTooltip w) v (bindPermitted w) (acceptor w)
    (readers w) (nextConn w) (readyPc w) (mQuit w) (quitWatcher w)
    (quitRequested w) (logs w).

Definition set_acceptor (v : task) (w : World) : World :=
  mkWorld (mKeyPresses w) (mMouseClicks w) (mMouseDistance w)
    (mScrollSteps w) (listener w) (isMenuInitialized w) (menu w)
    (trayTitle w) (trayTooltip w) (sockFile w) (bindPermitted w) v
    (readers w) (nextConn w) (readyPc w) (mQuit w) (quitWatcher w)
    (quitRequested w) (logs w).

Definition set_readers (v : gset nat) (w : World) : World :=
  mkWorld (mKeyPresses w) (mMouseClicks w) (mMouseDistance w)
    (mScrollSteps w) (listener w) (isMenuInitialized w) (menu w)
    (trayTitle w) (trayTooltip w) (sockFile w) (bindPermitted w)
    (acceptor w) v (nextConn w) (readyPc w) (mQuit w) (quitWatcher w)
    (quitRequested w) (logs w).

Definition set_nextConn (v : nat) (w : World) : World :=
  mkWorld (mKeyPresses w) (mMouseClicks w) (mMouseDistance w)
    (mScrollSteps w) (listener w) (isMenuInitialized w) (menu w)
    (trayTitle w) (trayTooltip w) (sockFile w) (bindPermitted w)
    (acceptor w) (readers w) v (readyPc w) (mQuit w) (quitWatcher w)
    (quitRequested w) (logs w).

Definition set_readyPc (v : nat) (w : World) : World :=
  mkWorld (mKeyPresses w) (mMouseClicks w) (mMouseDistance w)
    (mScrollSteps w) (listener w) (isMenuInitialized w) (menu w)
    (trayTitle w) (trayTooltip w) (sockFile w) (bindPermitted w)
    (acceptor w) (readers w) (nextConn w) v (mQuit w) (quitWatcher w)
    (quitRequested w) (logs w).

Definition set_mQuit (v : option nat) (w : World) : World :=
  mkWorld (mKeyPresses w) (mMouseClicks w) (mMouseDistance w)
    (mScrollSteps w) (listener w) (isMenuInitialized w) (menu w)
    (trayTitle w) (trayTooltip w) (sockFile w) (bindPermitted w)
    (acceptor w) (readers w) (nextConn w) (readyPc w) v (quitWatcher w)
    (quitRequested w) (logs w).

Definition set_quitWatcher (v : bool) (w : World) : World :=
  mkWorld (mKeyPresses w) (mMouseClicks w) (mMouseDistance w)
    (mScrollSteps w) (listener w) (isMenuInitialized w) (menu w)
    (trayTitle w) (trayTooltip w) (sockFile w) (bindPermitted w)
    (acceptor w) (readers w) (nextConn w) (readyPc w) (mQuit w) v
    (quitRequested w) (logs w).

Definition set_quitRequested (v : bool) (w : World) : World :=
  mkWorld (mKeyPresses w) (mMouseClicks w) (mMouseDistance w)
    (mScrollSteps w) (listener w) (isMenuInitialized w) (menu w)
    (trayTitle w) (trayTooltip w) (sockFile w) (bindPermitted w)
    (acceptor w) (readers w) (nextConn w) (readyPc w) (mQuit w)
    (quitWatcher w) v (logs w).

Definition set_logs (v : list LogLine) (w : World) : World :=
  mkWorld (mKeyPresses w) (mMouseClicks w) (mMouseDistance w)
    (mScrollSteps w) (listener w) (isMenuInitialized w) (menu w)
    (trayTitle w) (trayTooltip w) (sockFile w) (bindPermitted w)
    (acceptor w) (readers w) (nextConn w) (readyPc w) (mQuit w)
    (quitWatcher w) (quitRequested w) v.

(** The process at its start, in a given environment. *)
Definition boot (file : fsentry) (permitted : bool) : World :=
  mkWorld None None None None None false [] EmptyString EmptyString
          file permitted NotStarted ∅ 0%nat 0%nat None false false [].

(** ** Statements: a state and error monad

    A statement either completes, with a value and the state after it, or
    it ends the process: by [log.Fatalf] (exit status 1), by a run-time
    panic, or by the return of [main]. *)

Inductive halt : Type := Fatal | Panicked | Exited.

Inductive result (A : Type) : Type :=
| Ret (a : A) (w : World)
| Halt (h : halt) (w : World).
Arguments Ret {A} a w.
Arguments Halt {A} h w.

Definition M (A : Type) : Type := World -> result A.

Definition ret {A} (a : A) : M A := fun w => Ret a w.

Definition bind {A B} (m : M A) (k : A -> M B) : M B :=
  fun w =>
    match m w with
    | Ret a w' => k a w'
    | Halt h w' => Halt h w'
    end.

Notation "x <- m ;; k" := (bind m (fun x => k))
  (at level 100, m at next level, right associativity).
Notation "m ;; k" := (bind m (fun _ => k))
  (at level 100, right associativity).

Definition modify (f : World -> World) : M unit := fun w => Ret tt (f w).
Definition gets {A} (f : World -> A) : M A := fun w => Ret (f w) w.
Definition halts {A} (h : halt) : M A := fun w => Halt h w.

(** The world a statement leaves, however it ends. *)
Definition worldOf {A} (r : result A) : World :=
  match r with
  | Ret _ w => w
  | Halt _ w => w
  end.

(** ** The library calls *)

Definition logLine (l : LogLine) : M unit :=
  modify (fun w => set_logs (logs w ++ [l]) w).

(** [log.Fatalf]: the line, then [os.Exit(1)]. *)
Definition logFatal {A} (l : LogLine) : M A :=
  logLine l ;; halts Fatal.

(** Removing the entry at [sockAddr] (the system call unlink). *)
Definition unlink : M (option OSError) :=
  fun w =>
    match sockFile w with
    | NoEntry => Ret (Some ErrNotExist) w
    | Entry true => Ret None (set_sockFile NoEntry w)
    | Entry false => Ret (Some ErrPermission) w
    end.

(** [os.Remove(sockAddr)]. *)
Definition os_Remove : M (option OSError) := unlink.

(** [net.Listen(unix, sockAddr)]: binding fails when there is an entry at
    the address already, or when the system does not permit it;
    otherwise it creates the socket file.  The value returned is the new
    listener, or nil, and the error. *)
Definition net_Listen : M (option lnstate * option OSError) :=
  fun w =>
    match sockFile w with
    | Entry _ => Ret (None, Some ErrAddrInUse) w
    | NoEntry =>
      if bindPermitted w
      then Ret (Some Listening, None) (set_sockFile (Entry true) w)
      else Ret (None, Some ErrPermission) w
    end.

(** [listener.Close()].  On the nil interface the call panics.  Closing
    a Unix listener that [net.Listen] made also unlinks its socket file;
    closing it again is an error and does nothing. *)
Definition listener_Close : M (option OSError) :=
  l <- gets listener ;;
  match l with
  | None => halts Panicked
  | Some Closed => ret (Some ErrClosed)
  | Some Listening =>
    modify (set_listener (Some Closed)) ;;
    unlink ;;
    ret None
  end.

(** [systray.AddMenuItem]: a new item at the end of the menu; the
    pointer returned is never nil. *)
Definition systray_AddMenuItem (title tooltip : string) : M (option nat) :=
  h <- gets (fun w => length (menu w)) ;;
  modify (fun w => set_menu (menu w ++ [Item title tooltip]) w) ;;
  ret (Some h).

Definition systray_AddSeparator : M unit :=
  modify (fun w => set_menu (menu w ++ [Separator]) w).

Definition systray_SetTitle (t : string) : M unit := modify (set_trayTitle t).
Definition systray_SetTooltip (t : string) : M unit := modify (set_trayTooltip t).

Definition retitle (t : string) (e : entry) : entry :=
  match e with
  | Item _ tip => Item t tip
  | Separator => Separator
  end.

(** [item.SetTitle(t)]: on a nil pointer the call panics. *)
Definition MenuItem_SetTitle (item : option nat) (t : string) : M unit :=
  match item with
  | None => halts Panicked
  | Some h => modify (fun w => set_menu (alter (retitle t) h (menu w)) w)
  end.

(* ===================================================================== *)
(** * main.go *)
(* ===================================================================== *)

(** Line 29.  The model has one path only, [sockFile] is what is there. *)
Definition sockAddr : string := "/tmp/kawaiilogger.sock".

Definition isNil {A} (p : option A) : bool :=
  match p with None => true | Some _ => false end.

(** Statements one after the other. *)
Fixpoint block (ss : list (M unit)) : M unit :=
  match ss with
  | [] => ret tt
  | s :: ss' => s ;; block ss'
  end.

(** ** updateMenuItems, lines 136-152 *)

Definition titleKeypresses (metrics : Metrics) : string :=
  "Keypresses: " ++ formatInt (Keypresses metrics).

Definition titleMouseClicks (metrics : Metrics) : string :=
  "Mouse Clicks: " ++ formatInt (MouseClicks metrics).

Definition titleMouseDistance (metrics : Metrics) : string :=
  "Mouse Travel: " ++ formatFloat2 (MouseDistanceIn metrics)
  ++ " in / " ++ formatFloat2 (MouseDistanceMi metrics) ++ " mi".

Definition titleScrollSteps (metrics : Metrics) : string :=
  "Scroll Steps: " ++ formatInt (ScrollSteps metrics).

(** The four statements of lines 147-151, one after the other. *)
Definition setTitles (metrics : Metrics) : list (M unit) :=
  [ (h <- gets mKeyPresses ;; MenuItem_SetTitle h (titleKeypresses metrics));
    (h <- gets mMouseClicks ;; MenuItem_SetTitle h (titleMouseClicks metrics));
    (h <- gets mMouseDistance ;; MenuItem_SetTitle h (titleMouseDistance metrics));
    (h <- gets mScrollSteps ;; MenuItem_SetTitle h (titleScrollSteps metrics)) ].

Definition updateMenuItems (metrics : Metrics) : M unit :=
  initialized <- gets isMenuInitialized ;;
  if negb initialized then logLine LogNotInitialized
  else
    k <- gets mKeyPresses ;;
    c <- gets mMouseClicks ;;
    d <- gets mMouseDistance ;;
    s <- gets mScrollSteps ;;
    if isNil k || isNil c || isNil d || isNil s then logLine LogItemsNil
    else block (setTitles metrics).

(** ** handleConnection, lines 78-96 *)

(** What one call [conn.Read(buffer)] returns: the bytes [buffer[:n]]
    (at most 1024 of them, the length of the buffer) and the error. *)
Record ReadResult : Type := mkRead {
  rd_data : string;
  rd_err : option OSError
}.

(** One turn of the loop; [false] when the function returns. *)
Definition readIter (r : ReadResult) : M bool :=
  match rd_err r with
  | Some e => logLine (LogReadError e) ;; ret false
  | None =>
    let '(metrics, err) := Unmarshal (rd_data r) zeroMetrics in
    match err with
    | Some e => logLine (LogUnmarshalError e) ;; ret true
    | None =>
      logLine (LogReceived metrics) ;;
      updateMenuItems metrics ;;
      ret true
    end
  end.

(** The reader of a connection after the reads that the connection has
    had so far: it has returned, or it is blocked in [conn.Read]. *)
Inductive ReaderStatus : Type := Returned | Blocked.

Fixpoint handleConnection (reads : list ReadResult) : M ReaderStatus :=
  match reads with
  | [] => ret Blocked
  | r :: reads' =>
    continue <- readIter r ;;
    if continue then handleConnection reads' else ret Returned
  end.

(** ** cleanup and onExit, lines 123-134 *)

Definition cleanup : M unit :=
  logLine LogCleaningUp ;;
  l <- gets listener ;;
  (if isNil l then ret tt else (_ <- listener_Close ;; ret tt)) ;;
  _ <- os_Remove ;;
  ret tt.

Definition onExit : M unit :=
  logLine LogOnExitCalled ;;
  cleanup.

(** ** onReady, lines 98-120, statement by statement *)

Definition systray_Quit : M unit := modify (set_quitRequested true).

(** The goroutine of lines 111-116, once [mQuit] has been clicked. *)
Definition quitClicked : M unit :=
  logLine LogQuitClicked ;;
  cleanup ;;
  systray_Quit.

Definition onReady_stmts : list (M unit) :=
  [ logLine LogOnReadyCalled;
    systray_SetTitle "📊";
    systray_SetTooltip "KawaiiLogger";
    (h <- systray_AddMenuItem "Keypresses: 0" "Number of keypresses" ;;
     modify (set_mKeyPresses h));
    (h <- systray_AddMenuItem "Mouse Clicks: 0" "Number of mouse clicks" ;;
     modify (set_mMouseClicks h));
    (h <- systray_AddMenuItem "Mouse Travel: 0 in / 0 mi" "Distance moved by mouse" ;;
     modify (set_mMouseDistance h));
    (h <- systray_AddMenuItem "Scroll Steps: 0" "Number of scroll steps" ;;
     modify (set_mScrollSteps h));
    systray_AddSeparator;
    (h <- systray_AddMenuItem "Quit" "Quit the application" ;;
     modify (set_mQuit h));
    modify (set_quitWatcher true);
    modify (set_isMenuInitialized true);
    logLine LogOnReadyCompleted ].

Definition onReady : M unit := block onReady_stmts.

(** ** main and startSocketListener, lines 32-63 *)

(** [main] up to the call of [systray.Run]: from there on systray calls
    [onReady] and, at the end, [onExit]. *)
Definition main : M unit :=
  logLine LogStarting ;;
  err <- os_Remove ;;
  match err with
  | Some e =>
    if negb (IsNotExist e) then logFatal (LogFatalRemove e) else ret tt
  | None => ret tt
  end ;;
  logLine LogStartingSystray ;;
  modify (set_acceptor Spawned).

(** [startSocketListener] up to its loop.  The deferred
    [listener.Close()] never runs: the loop has no exit. *)
Definition startSocketListener_bind : M unit :=
  logLine LogCreatingSocket ;;
  r <- net_Listen ;;
  modify (set_listener (fst r)) ;;
  match snd r with
  | Some e => logFatal (LogFatalListen e)
  | None => logLine LogSocketCreated ;; modify (set_acceptor Accepting)
  end.

(** What one call [listener.Accept()] returns. *)
Inductive AcceptResult : Type :=
| AcceptConn
| AcceptErr (e : OSError).

(** [go handleConnection(conn)]: one more reader. *)
Definition spawnReader : M unit :=
  modify (fun w =>
    set_nextConn (S (nextConn w)) (set_readers (readers w ∪ {[ nextConn w ]}) w)).

(** One turn of the accept loop, lines 55-61. *)
Definition acceptIter (r : AcceptResult) : M unit :=
  match r with
  | AcceptErr e => logLine (LogAcceptError e)
  | AcceptConn => logLine LogClientConnected ;; spawnReader
  end.

(** The loop over the outcomes of its calls of Accept; when they are
    used up it is blocked in the next call. *)
Fixpoint acceptLoop (rs : list AcceptResult) : M unit :=
  match rs with
  | [] => ret tt
  | r :: rs' => acceptIter r ;; acceptLoop rs'
  end.

Definition startSocketListener (rs : list AcceptResult) : M unit :=
  startSocketListener_bind ;;
  acceptLoop rs.

(* ===================================================================== *)
(** * The goroutines together *)
(* ===================================================================== *)

(** The goroutines of the process run interleaved.  An event is one
    goroutine going from one blocking call to the next: the listener
    binding, a call of Accept returning, a call of Read returning on a
    connection, systray running the next statement of [onReady], the
    click on Quit, systray leaving its loop. *)
Inductive Event : Type :=
| EvListen
| EvAccept (r : AcceptResult)
| EvRead (c : nat) (r : ReadResult)
| EvOnReady
| EvQuitClicked
| EvExit.

Definition isListening (w : World) : bool :=
  match listener w with
  | Some Listening => true
  | _ => false
  end.

(** One turn of the reader of connection [c]; the reader goes away when
    its function returns. *)
Definition readerTurn (c : nat) (r : ReadResult) : M unit :=
  continue <- readIter r ;;
  if continue then ret tt
  else modify (fun w => set_readers (readers w ∖ {[ c ]}) w).

(** The next statement of [onReady]. *)
Definition onReadyTurn (s : M unit) : M unit :=
  s ;; modify (fun w => set_readyPc (S (readyPc w)) w).

(** What an event does, [None] when it cannot happen in this state.  A
    connection arrives only at a listener that listens. *)
Definition step (e : Event) (w : World) : option (result unit) :=
  match e with
  | EvListen =>
    match acceptor w with
    | Spawned => Some (startSocketListener_bind w)
    | _ => None
    end
  | EvAccept r =>
    match acceptor w, r with
    | Accepting, AcceptErr _ => Some (acceptIter r w)
    | Accepting, AcceptConn =>
      if isListening w then Some (acceptIter r w) else None
    | _, _ => None
    end
  | EvRead c r =>
    if decide (c ∈ readers w) then Some (readerTurn c r w) else None
  | EvOnReady =>
    match onReady_stmts !! readyPc w with
    | Some s => Some (onReadyTurn s w)
    | None => None
    end
  | EvQuitClicked =>
    if quitWatcher w && negb (quitRequested w)
    then Some (quitClicked w) else None
  | EvExit =>
    if quitRequested w then Some ((onExit ;; halts Exited) w) else None
  end.

(** The states of a run: [main] has started the goroutines, then the
    events come in any order. *)
Inductive reachable : World -> Prop :=
| reach_main file permitted w :
    main (boot file permitted) = Ret tt w -> reachable w
| reach_step w e w' :
    reachable w -> step e w = Some (Ret tt w') -> reachable w'.

(** A run of events from a state; it stops where the process ends, and
    skips an event that cannot happen. *)
Fixpoint run (es : list Event) (w : World) : result unit :=
  match es with
  | [] => Ret tt w
  | e :: es' =>
    match step e w with
    | None => run es' w
    | Some (Ret _ w') => run es' w'
    | Some (Halt h w') => Halt h w'
    end
  end.

(* ===================================================================== *)
(** * What a message says about a field *)
(* ===================================================================== *)

#[global] Instance field_eq_dec : EqDecision field.
Proof. solve_decision. Defined.

Definition isNull (v : json) : bool :=
  match v with JNull => true | _ => false end.

(** The values that the members of an object give to the field [f], in
    the order of the message: those of the members whose key stands for
    [f], but for [null], which gives nothing. *)
Fixpoint given (f : field) (members : list (string * json)) : list json :=
  match members with
  | [] => []
  | (key, v) :: rest =>
    if bool_decide (findField key = Some f) && negb (isNull v)
    then v :: given f rest
    else given f rest
  end.

(** A value that the type of the field can hold: a number literal that
    [parseInt], or [parseFloat] for the two distances, converts. *)
Definition convertible (f : field) (v : json) : bool :=
  match v with
  | JNumber n =>
    if isFloatField f then bool_decide (is_Some (parseFloat n))
    else bool_decide (is_Some (parseInt n))
  | _ => false
  end.

(** An object all of whose values for the five fields can be held. *)
Definition wellTyped (members : list (string * json)) : bool :=
  forallb (fun f => forallb (convertible f) (given f members)) fields.

Definition getInt (f : field) (m : Metrics) : Z :=
  match f with
  | FKeypresses => Keypresses m
  | FMouseClicks => MouseClicks m
  | FScrollSteps => ScrollSteps m
  | _ => 0
  end.

Definition getFloat (f : field) (m : Metrics) : float64 :=
  match f with
  | FMouseDistanceIn => MouseDistanceIn m
  | FMouseDistanceMi => MouseDistanceMi m
  | _ => zeroFloat
  end.

(** The number that a list of given values leaves in a field that held
    [d]: the last of them, converted. *)
Definition intValue (d : Z) (vs : list json) : Z :=
  match last vs with
  | Some (JNumber n) => default d (parseInt n)
  | _ => d
  end.

Definition floatValue (d : float64) (vs : list json) : float64 :=
  match last vs with
  | Some (JNumber n) => default d (parseFloat n)
  | _ => d
  end.

(** The signed 64-bit range. *)
Definition inIntRange (z : Z) : Prop := minInt <= z <= maxInt.

(** The numbers in a struct that can come out of a decoding: counts in
    the range of the type, distances that are finite. *)
Definition plausible (m : Metrics) : Prop :=
  inIntRange (Keypresses m) /\ inIntRange (MouseClicks m)
  /\ inIntRange (ScrollSteps m)
  /\ isFinite (MouseDistanceIn m) = true /\ isFinite (MouseDistanceMi m) = true.


(* ===================================================================== *)
(** * Notions used in the statements about the process *)
(* ===================================================================== *)

(** The start of the process, in the order in which it happens: [main]
    up to [systray.Run], then the goroutine of the listener up to its
    loop. *)
Definition startup : M unit := main ;; startSocketListener_bind.

(** The line that one outcome of Accept adds to the log. *)
Definition acceptLine (r : AcceptResult) : LogLine :=
  match r with
  | AcceptConn => LogClientConnected
  | AcceptErr e => LogAcceptError e
  end.

Definition isConn (r : AcceptResult) : bool :=
  match r with AcceptConn => true | AcceptErr _ => false end.

(** The connections among the outcomes of Accept. *)
Definition accepted (rs : list AcceptResult) : nat :=
  length (filter (fun r => isConn r = true) rs).

(** The connections numbered from [n], [k] of them. *)
Definition connsFrom (n k : nat) : gset nat := list_to_set (List.seq n k).

(** The snapshots handed to [updateMenuItems]: each call follows the line
    of the log that shows the snapshot (lines 93-94). *)
Fixpoint published (ls : list LogLine) : list Metrics :=
  match ls with
  | [] => []
  | LogReceived m :: ls' => m :: published ls'
  | _ :: ls' => published ls'
  end.

Definition addLog (ls : list LogLine) (w : World) : World :=
  set_logs (logs w ++ ls) w.

(** The menu after the four titles of [metrics] are set on the items
    [k], [c], [d] and [s], in the order of lines 147-151. *)
Definition rendered (metrics : Metrics) (k c d s : nat) (mn : list entry)
  : list entry :=
  alter (retitle (titleScrollSteps metrics)) s
    (alter (retitle (titleMouseDistance metrics)) d
       (alter (retitle (titleMouseClicks metrics)) c
          (alter (retitle (titleKeypresses metrics)) k mn))).

(** The state after the reader of [c] has returned on the read error
    [e]. *)
Definition afterReadError (c : nat) (e : OSError) (w : World) : World :=
  set_readers (readers w ∖ {[ c ]}) (addLog [LogReadError e] w).

(** The state after the accept loop has taken a connection. *)
Definition afterAccept (w : World) : World :=
  set_nextConn (S (nextConn w))
    (set_readers (readers w ∪ {[ nextConn w ]})
       (addLog [LogClientConnected] w)).

(** ** The menu as it is shown *)

(** The title of the item that a pointer refers to. *)
Definition titleOf (mn : list entry) (item : option nat) : option string :=
  match item with
  | Some h =>
    match mn !! h with
    | Some (Item t _) => Some t
    | _ => None
    end
  | None => None
  end.

(** The four pointers of the program, and the titles the menu shows for
    them. *)
Definition handles (w : World) : list (option nat) :=
  [mKeyPresses w; mMouseClicks w; mMouseDistance w; mScrollSteps w].

Definition display (w : World) : list (option string) :=
  List.map (titleOf (menu w)) (handles w).

(** The four titles of a snapshot. *)
Definition titles (metrics : Metrics) : list string :=
  [titleKeypresses metrics; titleMouseClicks metrics;
   titleMouseDistance metrics; titleScrollSteps metrics].

(** ** The invariant of onReady *)

Definition validItem (mn : list entry) (h : nat) : Prop :=
  exists t tip, mn !! h = Some (Item t tip).

(** How many entries the menu has when [pc] statements of [onReady]
    have run. *)
Definition entriesAt (pc : nat) : nat :=
  match pc with
  | 0 | 1 | 2 | 3 => 0
  | 4 => 1
  | 5 => 2
  | 6 => 3
  | 7 => 4
  | 8 => 5
  | _ => 6
  end%nat.

(** The pointer that the statement number [i] of [onReady] assigns,
    once it has run. *)
Definition assignedAt (pc i h : nat) : option nat :=
  if (i <? pc)%nat then Some h else None.

(** What holds in every state of a run: the four pointers are assigned
    by the statements 3 to 6 of [onReady], to the first four entries of
    the menu, which are items; the flag is set by statement 10, after
    them. *)
Record Inv (w : World) : Prop := mkInv {
  inv_pc : (readyPc w <= 12)%nat;
  inv_k : mKeyPresses w = assignedAt (readyPc w) 3 0;
  inv_c : mMouseClicks w = assignedAt (readyPc w) 4 1;
  inv_d : mMouseDistance w = assignedAt (readyPc w) 5 2;
  inv_s : mScrollSteps w = assignedAt (readyPc w) 6 3;
  inv_flag : isMenuInitialized w = (10 <? readyPc w)%nat;
  inv_len : length (menu w) = entriesAt (readyPc w);
  inv_items : forall h, (h < 4)%nat -> (h < length (menu w))%nat ->
                        validItem (menu w) h
}.

(** The part of the state that the invariant is about. *)
Definition core (w : World) :=
  (readyPc w, handles w, isMenuInitialized w, menu w).

(** The state when systray has run [onReady] to its end, after a start
    with nothing at the address and the bind permitted. *)
Definition readyWorld : World :=
  worldOf (run (repeat EvOnReady 12) (worldOf (main (boot NoEntry true)))).

(* ===================================================================== *)
(** * Notions for further properties of the program *)
(* ===================================================================== *)

(** The snapshots that a reader hands on over the reads of its
    connection: those of the messages that decode, up to the first read
    that fails. *)
Fixpoint decoded (reads : list ReadResult) : list Metrics :=
  match reads with
  | [] => []
  | r :: rest =>
    match rd_err r with
    | Some _ => []
    | None =>
      match Unmarshal (rd_data r) zeroMetrics with
      | (m, None) => m :: decoded rest
      | (_, Some _) => decoded rest
      end
    end
  end.

(** Whether one of the reads fails. *)
Definition failed (reads : list ReadResult) : bool :=
  existsb (fun r => negb (isNil (rd_err r))) reads.

(** [w'] differs from [w] in the menu and the log at most. *)
Definition sameButMenuAndLogs (w w' : World) : Prop :=
  w' = set_logs (logs w') (set_menu (menu w') w).

(** The tooltip of an entry, none for a separator. *)
Definition tooltipOf (e : entry) : option string :=
  match e with
  | Item _ tip => Some tip
  | Separator => None
  end.

(** The states in which [onReady] has set the flag, with what the
    invariant says of them. *)
Definition Ready (w : World) : Prop := Inv w /\ isMenuInitialized w = true.

(** What holds of the socket and of the goroutines in every state of a
    run: the socket file is there exactly while the listener listens;
    the readers are connections that were accepted; the listener exists
    exactly when its goroutine is in the accept loop, and connections
    are accepted only there. *)
Record Sys (w : World) : Prop := mkSys {
  sys_file : sockFile w = if isListening w then Entry true else NoEntry;
  sys_readers : forall c, c ∈ readers w -> (c < nextConn w)%nat;
  sys_listener : acceptor w = Accepting <-> listener w <> None;
  sys_conns : (0 < nextConn w)%nat -> acceptor w = Accepting;
  sys_started : acceptor w <> NotStarted
}.

(** The fields of the state that [onReady] and the readers leave alone. *)
Definition plumbing (w : World) :=
  (listener w, sockFile w, bindPermitted w, acceptor w, readers w,
   nextConn w).

(** A state of a run with all of it in place: a stale file was at the
    address at the start, the listener has bound its socket and accepted
    a connection, and [onReady] has run to its end. *)
Definition servingWorld : World :=
  worldOf (run (EvListen :: EvAccept AcceptConn :: repeat EvOnReady 12)
               (worldOf (main (boot (Entry true) true)))).

(* ===================================================================== *)
(** * Properties of the decoding *)
(* ===================================================================== *)

Section DecodeFacts.

Lemma getInt_setInt (f g : field) (z : Z) (m : Metrics) :
  isFloatField f = false ->
  getInt f (setInt g z m) = if decide (g = f) then z else getInt f m.
Proof. destruct f, g; intros Hf; try discriminate Hf; reflexivity. Qed.

Lemma getInt_setFloat (f g : field) (x : float64) (m : Metrics) :
  getInt f (setFloat g x m) = getInt f m.
Proof. destruct f, g; reflexivity. Qed.

Lemma getFloat_setFloat (f g : field) (x : float64) (m : Metrics) :
  isFloatField f = true -> isFloatField g = true ->
  getFloat f (setFloat g x m) = if decide (g = f) then x else getFloat f m.
Proof. destruct f, g; intros Hf Hg; try discriminate; reflexivity. Qed.

Lemma getFloat_setInt (f g : field) (z : Z) (m : Metrics) :
  getFloat f (setInt g z m) = getFloat f m.
Proof. destruct f, g; reflexivity. Qed.

Lemma given_cons (f : field) (key : string) (v : json) rest :
  given f ((key, v) :: rest) =
  if bool_decide (findField key = Some f) && negb (isNull v)
  then v :: given f rest else given f rest.
Proof. reflexivity. Qed.

Lemma wellTyped_spec (members : list (string * json)) :
  wellTyped members = true <->
  forall f v, v ∈ given f members -> convertible f v = true.
Proof.
  unfold wellTyped. rewrite forallb_forall. split.
  - intros H f v Hv.
    assert (Hf : In f fields) by (destruct f; simpl; tauto).
    specialize (H f Hf). rewrite forallb_forall in H.
    apply H. now apply list_elem_of_In.
  - intros H f _. rewrite forallb_forall. intros v Hv.
    apply H. now apply list_elem_of_In.
Qed.

(** The given values after the first do not need what the field held. *)
Lemma intValue_cons (d z : Z) (n : numlit) (vs : list json) :
  parseInt n = Some z ->
  (forall v, v ∈ vs -> exists n', v = JNumber n' /\ is_Some (parseInt n')) ->
  intValue d (JNumber n :: vs) = intValue z vs.
Proof.
  intros Hn Hvs. unfold intValue. rewrite last_cons.
  destruct (last vs) as [y|] eqn:Hl.
  - apply last_Some_elem_of in Hl. destruct (Hvs y Hl) as (n' & -> & [z' Hz']).
    now rewrite Hz'.
  - now rewrite Hn.
Qed.

Lemma floatValue_cons (d x : float64) (n : numlit) (vs : list json) :
  parseFloat n = Some x ->
  (forall v, v ∈ vs -> exists n', v = JNumber n' /\ is_Some (parseFloat n')) ->
  floatValue d (JNumber n :: vs) = floatValue x vs.
Proof.
  intros Hn Hvs. unfold floatValue. rewrite last_cons.
  destruct (last vs) as [y|] eqn:Hl.
  - apply last_Some_elem_of in Hl. destruct (Hvs y Hl) as (n' & -> & [z' Hz']).
    now rewrite Hz'.
  - now rewrite Hn.
Qed.

Lemma convertible_int (f : field) (v : json) :
  isFloatField f = false -> convertible f v = true ->
  exists n, v = JNumber n /\ is_Some (parseInt n).
Proof.
  intros Hf. destruct v; simpl; try discriminate.
  rewrite Hf. intros H. apply bool_decide_eq_true in H. eauto.
Qed.

Lemma convertible_float (f : field) (v : json) :
  isFloatField f = true -> convertible f v = true ->
  exists n, v = JNumber n /\ is_Some (parseFloat n).
Proof.
  intros Hf. destruct v; simpl; try discriminate.
  rewrite Hf. intros H. apply bool_decide_eq_true in H. eauto.
Qed.

Lemma given_tail (f : field) (key : string) (v0 v : json) rest :
  v ∈ given f rest -> v ∈ given f ((key, v0) :: rest).
Proof.
  intros H. rewrite given_cons.
  destruct (bool_decide _ && _); [now apply list_elem_of_further | exact H].
Qed.

Lemma given_unknown (f : field) (key : string) (v : json) rest :
  findField key = None -> given f ((key, v) :: rest) = given f rest.
Proof.
  intros Hk. rewrite given_cons, Hk.
  now rewrite bool_decide_eq_false_2 by discriminate.
Qed.

Lemma given_other (f g : field) (key : string) (v : json) rest :
  findField key = Some g -> g <> f ->
  given f ((key, v) :: rest) = given f rest.
Proof.
  intros Hk Hne. rewrite given_cons, Hk.
  now rewrite bool_decide_eq_false_2 by congruence.
Qed.

Lemma given_here (f : field) (key : string) (n : numlit) rest :
  findField key = Some f ->
  given f ((key, JNumber n) :: rest) = JNumber n :: given f rest.
Proof.
  intros Hk. rewrite given_cons, Hk.
  now rewrite bool_decide_eq_true_2 by reflexivity.
Qed.

Lemma saveError_None (saved : option DecodeError) : saveError saved None = saved.
Proof. now destruct saved. Qed.

Lemma store_float (f : field) (n : numlit) (x : float64) (m : Metrics) :
  isFloatField f = true -> parseFloat n = Some x ->
  store f (JNumber n) m = (setFloat f x m, None).
Proof. intros Hf Hx. simpl. now rewrite Hf, Hx. Qed.

Lemma store_int (f : field) (n : numlit) (z : Z) (m : Metrics) :
  isFloatField f = false -> parseInt n = Some z ->
  store f (JNumber n) m = (setInt f z m, None).
Proof. intros Hf Hz. simpl. now rewrite Hf, Hz. Qed.

Lemma object_known (f : field) (key : string) (v : json) rest m saved :
  findField key = Some f ->
  object ((key, v) :: rest) m saved =
  object rest (fst (store f v m)) (saveError saved (snd (store f v m))).
Proof. intros Hk. simpl. rewrite Hk. now destruct (store f v m). Qed.

Lemma object_unknown (key : string) (v : json) rest m saved :
  findField key = None ->
  object ((key, v) :: rest) m saved = object rest m saved.
Proof. intros Hk. simpl. now rewrite Hk. Qed.

(** An object that is well typed decodes without an error, and each field
    ends with the last value given to it, or as it was. *)
Lemma object_wellTyped (members : list (string * json)) :
  forall (m : Metrics) (saved : option DecodeError),
  (forall f v, v ∈ given f members -> convertible f v = true) ->
  exists m',
    object members m saved = (m', saved)
    /\ (forall f, isFloatField f = false ->
          getInt f m' = intValue (getInt f m) (given f members))
    /\ (forall f, isFloatField f = true ->
          getFloat f m' = floatValue (getFloat f m) (given f members)).
Proof.
  induction members as [|[key v] rest IH]; intros m saved Hwt.
  - exists m. repeat split.
  - assert (Hrest : forall f v', v' ∈ given f rest -> convertible f v' = true)
      by (intros f v' Hv'; apply Hwt; now apply given_tail).
    destruct (findField key) as [g|] eqn:Hk.
    + rewrite (object_known g) by exact Hk.
      destruct (isNull v) eqn:Hnull.
      * destruct v; try discriminate Hnull. simpl store. simpl fst. simpl snd.
        rewrite saveError_None.
        destruct (IH m saved Hrest) as (m' & Hobj & Hint & Hfl).
        exists m'. split; [exact Hobj|].
        split; intros f Hf; rewrite given_cons; simpl;
          rewrite andb_false_r; auto.
      * assert (Hconv : convertible g v = true).
        { apply Hwt. rewrite given_cons, Hk, Hnull.
          rewrite bool_decide_eq_true_2 by reflexivity.
          simpl. apply list_elem_of_here. }
        destruct (isFloatField g) eqn:Hg.
        -- destruct (convertible_float g v Hg Hconv) as (n & -> & [x Hx]).
           rewrite (store_float g n x) by assumption. simpl fst. simpl snd.
           rewrite saveError_None.
           destruct (IH (setFloat g x m) saved Hrest) as (m' & Hobj & Hint & Hfl).
           exists m'. split; [exact Hobj|]. split; intros f Hf.
           ++ rewrite (given_other f g) by (auto; congruence).
              rewrite Hint, getInt_setFloat; auto.
           ++ rewrite Hfl, getFloat_setFloat by auto.
              destruct (decide (g = f)) as [->|Hne].
              ** rewrite given_here by auto. symmetry.
                 apply floatValue_cons; [exact Hx|].
                 intros v Hv. apply (convertible_float f); auto.
              ** now rewrite (given_other f g) by auto.
        -- destruct (convertible_int g v Hg Hconv) as (n & -> & [z Hz]).
           rewrite (store_int g n z) by assumption. simpl fst. simpl snd.
           rewrite saveError_None.
           destruct (IH (setInt g z m) saved Hrest) as (m' & Hobj & Hint & Hfl).
           exists m'. split; [exact Hobj|]. split; intros f Hf.
           ++ rewrite Hint, getInt_setInt by auto.
              destruct (decide (g = f)) as [->|Hne].
              ** rewrite given_here by auto. symmetry.
                 apply intValue_cons; [exact Hz|].
                 intros v Hv. apply (convertible_int f); auto.
              ** now rewrite (given_other f g) by auto.
           ++ rewrite (given_other f g) by (auto; congruence).
              rewrite Hfl, getFloat_setInt; auto.
    + rewrite object_unknown by exact Hk.
      destruct (IH m saved Hrest) as (m' & Hobj & Hint & Hfl).
      exists m'. split; [exact Hobj|].
      split; intros f Hf; rewrite given_unknown by exact Hk; auto.
Qed.

(** A member whose key stands for no field changes nothing. *)
Lemma object_skips_unknown (pre post : list (string * json))
      (key : string) (v : json) :
  findField key = None ->
  forall m saved,
    object (pre ++ (key, v) :: post) m saved = object (pre ++ post) m saved.
Proof.
  intros Hk. induction pre as [|[k' v'] pre IH]; intros m saved; simpl.
  - now rewrite Hk.
  - destruct (findField k'); [destruct (store _ _ _)|]; apply IH.
Qed.

Lemma parseInt_range (n : numlit) (z : Z) :
  parseInt n = Some z -> inIntRange z.
Proof.
  unfold parseInt, inIntRange. destruct (nl_exp n); [discriminate|].
  destruct (0 <? nl_fraclen n); [discriminate|].
  destruct (_ && _) eqn:H; [|discriminate].
  intros [= <-]. apply andb_true_iff in H. lia.
Qed.

Lemma parseFloat_finite (n : numlit) (x : float64) :
  parseFloat n = Some x -> isFinite x = true.
Proof.
  unfold parseFloat. destruct (isFinite _) eqn:H; [|discriminate].
  now intros [= <-].
Qed.

Lemma store_plausible (f : field) (v : json) (m : Metrics) :
  plausible m -> plausible (fst (store f v m)).
Proof.
  intros Hm. pose proof Hm as (Hk & Hc & Hs & Hi & Hmi).
  destruct v as [ | b | n | s | l | l ]; simpl; try exact Hm.
  destruct (isFloatField f) eqn:Hf.
  - destruct (parseFloat n) as [x|] eqn:Hx; simpl; [|exact Hm].
    apply parseFloat_finite in Hx.
    destruct f; try discriminate Hf; unfold plausible; simpl; tauto.
  - destruct (parseInt n) as [z|] eqn:Hz; simpl; [|exact Hm].
    apply parseInt_range in Hz.
    destruct f; try discriminate Hf; unfold plausible; simpl; tauto.
Qed.

Lemma object_plausible (members : list (string * json)) :
  forall m saved, plausible m -> plausible (fst (object members m saved)).
Proof.
  induction members as [|[key v] rest IH]; intros m saved Hm; simpl; [exact Hm|].
  destruct (findField key) as [g|]; [|now apply IH].
  pose proof (store_plausible g v m Hm) as Hs.
  destruct (store g v m) as [m' err]. now apply IH.
Qed.

Lemma zeroMetrics_plausible : plausible zeroMetrics.
Proof. unfold plausible, inIntRange, minInt, maxInt; simpl. repeat split; lia. Qed.

Lemma Unmarshal_plausible (data : string) (m : Metrics) :
  plausible m -> plausible (fst (Unmarshal data m)).
Proof.
  intros Hm. unfold Unmarshal. destruct (parse data) as [v|]; [|exact Hm].
  destruct v; simpl; try exact Hm. now apply object_plausible.
Qed.

End DecodeFacts.

(** ** The claims about the decoding *)

(** What [findField] does with the five names: a key stands for the
    field whose name it is up to case. *)
Lemma findField_fold (key : string) (f : field) :
  findField key = Some f <-> foldString key = foldString (fieldName f).
Proof.
  assert (Hinj : forall g, foldString (fieldName g) = foldString (fieldName f)
                           -> g = f).
  { intros g H. destruct g, f; try reflexivity; vm_compute in H; discriminate. }
  assert (Hin : In f fields) by (destruct f; simpl; tauto).
  unfold findField.
  destruct (List.find (fun g => String.eqb (fieldName g) key) fields)
    as [g|] eqn:Hexact.
  - apply List.find_some in Hexact as [_ Heq].
    apply String.eqb_eq in Heq. subst key. split.
    + now intros [= ->].
    + intros H. f_equal. now apply Hinj.
  - destruct (List.find
                (fun g => String.eqb (foldString (fieldName g)) (foldString key))
                fields) as [g|] eqn:Hfold.
    + apply List.find_some in Hfold as [_ Heq].
      apply String.eqb_eq in Heq. split.
      * now intros [= ->].
      * intros H. f_equal. apply Hinj. now rewrite Heq.
    + split; [discriminate|]. intros H.
      pose proof (List.find_none _ _ Hfold f Hin) as Hn. simpl in Hn.
      rewrite H, String.eqb_refl in Hn. discriminate.
Qed.

(** C1, as the code has it.  For every message that is a JSON object in
    which each value given to one of the five fields is a number that the
    type of the field can hold (a member gives a value to a field when its
    key is the name of the field up to case, and its value is not null),
    [json.Unmarshal] returns no error, each field holds the last value
    given to it, a field that is given none is zero, and a member that
    stands for no field changes nothing: without it the result is the
    same. *)
Theorem decode_well_typed_snapshot
        (data : string) (members : list (string * json)) :
  parse data = Some (JObject members) ->
  wellTyped members = true ->
  exists m,
    Unmarshal data zeroMetrics = (m, None)
    /\ (forall f, isFloatField f = false ->
          getInt f m = intValue 0 (given f members))
    /\ (forall f, isFloatField f = true ->
          getFloat f m = floatValue zeroFloat (given f members))
    /\ (forall pre key v post,
          members = pre ++ (key, v) :: post -> findField key = None ->
          value (JObject (pre ++ post)) zeroMetrics = (m, None)).
Proof.
  intros Hparse Hwt.
  pose proof (proj1 (wellTyped_spec members) Hwt) as Hwt'. clear Hwt.
  rename Hwt' into Hwt.
  destruct (object_wellTyped members zeroMetrics None Hwt)
    as (m & Hobj & Hint & Hfl).
  exists m. unfold Unmarshal. rewrite Hparse. simpl value.
  split; [exact Hobj|]. split; [|split].
  - intros f Hf. rewrite (Hint f Hf). now destruct f.
  - intros f Hf. rewrite (Hfl f Hf). now destruct f.
  - intros pre key v post -> Hk.
    now rewrite <- (object_skips_unknown pre post key v Hk).
Qed.

(** The message with one member only, keypresses at 5. *)
Lemma decode_keypresses_only :
  exists m,
    Unmarshal (dq "{'keypresses': 5}") zeroMetrics = (m, None)
    /\ (forall f, isFloatField f = false ->
          getInt f m =
          intValue 0 (given f [("keypresses"%string, JNumber (numStart false 5))]))
    /\ (forall f, isFloatField f = true ->
          getFloat f m =
          floatValue zeroFloat
            (given f [("keypresses"%string, JNumber (numStart false 5))]))
    /\ (forall pre key v post,
          [("keypresses"%string, JNumber (numStart false 5))]
          = pre ++ (key, v) :: post ->
          findField key = None ->
          value (JObject (pre ++ post)) zeroMetrics = (m, None)).
Proof.
  apply (decode_well_typed_snapshot (dq "{'keypresses': 5}")
           [("keypresses"%string, JNumber (numStart false 5))]).
  - vm_compute. reflexivity.
  - vm_compute. reflexivity.
Defined.

(** C1 as it is stated fails twice.  The message whose one member has
    the key KEYPRESSES names none of the five fields, yet it sets the
    count of key presses to 5: that member is not ignored, and the field,
    absent from the message, is not zero.  And the message that gives
    keypresses the integer 2^63 is a snapshot of the right form to which
    the decoding gives no struct but an error. *)
Lemma decode_folds_case_and_bounds_counts :
  (parse (dq "{'KEYPRESSES': 5}")
   = Some (JObject [("KEYPRESSES"%string, JNumber (numStart false 5))])
   /\ (forall f, fieldName f <> "KEYPRESSES"%string)
   /\ Unmarshal (dq "{'KEYPRESSES': 5}") zeroMetrics
      = (mkMetrics 5 0 zeroFloat zeroFloat 0, None))
  /\ (parse (dq "{'keypresses': 9223372036854775808}")
      = Some (JObject [("keypresses"%string,
                        JNumber (numStart false 9223372036854775808))])
      /\ Unmarshal (dq "{'keypresses': 9223372036854775808}") zeroMetrics
         = (zeroMetrics, Some (UnmarshalTypeError KNumber (Some FKeypresses)))).
Proof.
  split; [split; [|split]|split]; try (vm_compute; reflexivity).
  intros f; destruct f; discriminate.
Qed.

(** C9, as the code has it.  In every struct that a decoding without
    error produces, the three counts are within the range of a signed
    64-bit integer and the two distances are finite; their sign is not
    looked at. *)
Theorem decode_success_plausible (data : string) (m : Metrics) :
  Unmarshal data zeroMetrics = (m, None) -> plausible m.
Proof.
  intros H.
  pose proof (Unmarshal_plausible data zeroMetrics zeroMetrics_plausible) as Hp.
  now rewrite H in Hp.
Qed.

Lemma decode_success_plausible_negative :
  plausible (mkMetrics (-5) 0 zeroFloat zeroFloat 0).
Proof.
  apply (decode_success_plausible (dq "{'keypresses': -5}")).
  vm_compute. reflexivity.
Defined.

(** C9 as it is stated fails: a message may give a negative count and a
    negative distance, and the decoding succeeds with them. *)
Lemma decode_accepts_negative :
  Unmarshal (dq "{'keypresses': -5, 'mouse_distance_in': -1.5}") zeroMetrics
  = (mkMetrics (-5) 0 (S754_finite true 6755399441055744 (-52)) zeroFloat 0,
     None)
  /\ Keypresses (mkMetrics (-5) 0 (S754_finite true 6755399441055744 (-52))
                           zeroFloat 0) < 0
  /\ SFltb (S754_finite true 6755399441055744 (-52)) zeroFloat = true.
Proof. repeat split; vm_compute; reflexivity. Qed.

(* ===================================================================== *)
(** * Properties of the process *)
(* ===================================================================== *)

(** ** cleanup *)

(** C6.  [cleanup] can be called in any state, also with [listener] nil
    (before the bind, or without it): it returns, with no panic and no
    exit.  Called again it returns too, and changes nothing but the log:
    after the first call already the listener does not listen, and the
    entry at the address is gone, unless it was one that this process
    cannot remove. *)
Theorem cleanup_idempotent (w : World) :
  exists w1,
    cleanup w = Ret tt w1
    /\ cleanup w1 = Ret tt (addLog [LogCleaningUp] w1)
    /\ isListening w1 = false
    /\ sockFile w1 = match sockFile w with
                     | Entry false => Entry false
                     | _ => NoEntry
                     end
    /\ listener w1 = match listener w with
                     | None => None
                     | Some _ => Some Closed
                     end.
Proof.
  destruct w as [k c d s l i mn tt' tp sf bp ac rd nc pc mq qw qr lg].
  destruct l as [[|]|], sf as [|[|]];
    eexists; (split; [reflexivity|]); repeat split; reflexivity.
Qed.

(** ** The start *)

Lemma bind_outcome (w : World) :
  match startSocketListener_bind w with
  | Ret _ w' =>
    sockFile w = NoEntry /\ bindPermitted w = true
    /\ listener w' = Some Listening /\ sockFile w' = Entry true
    /\ acceptor w' = Accepting
  | Halt h w' =>
    h = Fatal /\ listener w' = None
    /\ (sockFile w <> NoEntry \/ bindPermitted w = false)
  end.
Proof.
  destruct w as [k c d s l i mn tt' tp sf bp ac rd nc pc mq qw qr lg].
  destruct sf as [|[|]], bp; cbn; repeat split; auto; left; discriminate.
Qed.

(** C7.  Whatever is at the address when the process starts and whether
    the system permits the bind: an entry that cannot be removed makes
    [main] abort, before any bind; otherwise [main] leaves no entry at the
    address (a stale file is removed, and finding none is no error), and
    then the listener binds a new socket there and enters its accept
    loop, or, when the bind fails, aborts the process. *)
Theorem startup_removes_stale_then_binds (file : fsentry) (permitted : bool) :
  match file, permitted with
  | Entry false, _ =>
    exists w, main (boot file permitted) = Halt Fatal w
              /\ listener w = None /\ acceptor w = NotStarted
              /\ logs w = [LogStarting; LogFatalRemove ErrPermission]
  | _, true =>
    exists w0 w,
      main (boot file permitted) = Ret tt w0
      /\ sockFile w0 = NoEntry /\ listener w0 = None
      /\ startup (boot file permitted) = Ret tt w
      /\ listener w = Some Listening /\ sockFile w = Entry true
      /\ acceptor w = Accepting
  | _, false =>
    exists w0 w,
      main (boot file permitted) = Ret tt w0
      /\ sockFile w0 = NoEntry
      /\ startup (boot file permitted) = Halt Fatal w
      /\ listener w = None
      /\ logs w = [LogStarting; LogStartingSystray; LogCreatingSocket;
                   LogFatalListen ErrPermission]
  end.
Proof.
  destruct file as [|[|]], permitted; cbn;
    repeat (eexists; repeat split).
Qed.

(** ** The accept loop *)

Lemma acceptIter_total (r : AcceptResult) (w : World) :
  acceptIter r w =
  Ret tt (if isConn r
          then set_nextConn (S (nextConn w))
                 (set_readers (readers w ∪ {[ nextConn w ]})
                    (addLog [LogClientConnected] w))
          else addLog [acceptLine r] w).
Proof. destruct r; reflexivity. Qed.

Lemma connsFrom_S (n k : nat) :
  connsFrom n (S k) = {[ n ]} ∪ connsFrom (S n) k.
Proof. unfold connsFrom. simpl. reflexivity. Qed.

(** C8.  An error of one call of Accept adds a line to the log and
    changes nothing else, and the loop goes on with the next call.  So
    over any outcomes of its calls the loop neither returns nor ends the
    process: it logs a line for each outcome, starts a reader for each
    connection, however many errors came before it, and leaves the
    listener as it was. *)
Theorem accept_errors_do_not_stop_the_loop :
  (forall e rs w,
     acceptLoop (AcceptErr e :: rs) w
     = acceptLoop rs (addLog [LogAcceptError e] w))
  /\ (forall rs w,
        exists w',
          acceptLoop rs w = Ret tt w'
          /\ logs w' = logs w ++ List.map acceptLine rs
          /\ readers w' = readers w ∪ connsFrom (nextConn w) (accepted rs)
          /\ nextConn w' = (nextConn w + accepted rs)%nat
          /\ acceptor w' = acceptor w
          /\ listener w' = listener w
          /\ sockFile w' = sockFile w).
Proof.
  split; [reflexivity|].
  induction rs as [|r rs IH]; intros w.
  - exists w. simpl. rewrite app_nil_r. unfold accepted, connsFrom. simpl.
    repeat split; [set_solver | lia].
  - simpl acceptLoop. unfold bind at 1. rewrite acceptIter_total.
    destruct r as [|e]; simpl isConn; cbv iota.
    + destruct (IH (set_nextConn (S (nextConn w))
                      (set_readers (readers w ∪ {[ nextConn w ]})
                         (addLog [LogClientConnected] w))))
        as (w' & Hrun & Hlogs & Hrd & Hnc & Hac & Hl & Hsf).
      exists w'. split; [exact Hrun|].
      simpl in Hlogs, Hrd, Hnc, Hac, Hl, Hsf.
      replace (accepted (AcceptConn :: rs)) with (S (accepted rs))
        by reflexivity.
      rewrite connsFrom_S.
      repeat split; try assumption.
      * rewrite Hlogs. simpl. now rewrite <- app_assoc.
      * rewrite Hrd. set_solver.
      * lia.
    + destruct (IH (addLog [LogAcceptError e] w))
        as (w' & Hrun & Hlogs & Hrd & Hnc & Hac & Hl & Hsf).
      exists w'. split; [exact Hrun|].
      simpl in Hlogs, Hrd, Hnc, Hac, Hl, Hsf.
      replace (accepted (AcceptErr e :: rs)) with (accepted rs)
        by reflexivity.
      repeat split; try assumption.
      rewrite Hlogs. simpl. now rewrite <- app_assoc.
Qed.

(** ** The reader of a connection *)

Lemma published_app (l1 l2 : list LogLine) :
  published (l1 ++ l2) = published l1 ++ published l2.
Proof.
  induction l1 as [|l l1 IH]; [reflexivity|].
  destruct l; simpl; now rewrite ?IH.
Qed.

Lemma MenuItem_SetTitle_logs (h : option nat) (t : string) (w : World) :
  logs (worldOf (MenuItem_SetTitle h t w)) = logs w.
Proof. now destruct h. Qed.

(** [updateMenuItems] in one equation. *)
Lemma updateMenuItems_eq (m : Metrics) (w : World) :
  updateMenuItems m w =
  Ret tt
    (if isMenuInitialized w then
       match mKeyPresses w, mMouseClicks w, mMouseDistance w, mScrollSteps w with
       | Some k, Some c, Some d, Some s => set_menu (rendered m k c d s (menu w)) w
       | _, _, _, _ => addLog [LogItemsNil] w
       end
     else addLog [LogNotInitialized] w).
Proof.
  destruct w as [k c d s l i mn tt' tp sf bp ac rd nc pc mq qw qr lg].
  destruct i; [|reflexivity].
  destruct k, c, d, s; reflexivity.
Qed.

(** [updateMenuItems] hands no snapshot on: it logs none. *)
Lemma updateMenuItems_published (m : Metrics) (w : World) :
  published (logs (worldOf (updateMenuItems m w))) = published (logs w).
Proof.
  rewrite updateMenuItems_eq. simpl worldOf.
  destruct (isMenuInitialized w).
  - destruct (mKeyPresses w), (mMouseClicks w), (mMouseDistance w),
      (mScrollSteps w); simpl;
      rewrite ?published_app; simpl; now rewrite ?app_nil_r.
  - simpl. rewrite published_app. simpl. now rewrite app_nil_r.
Qed.

Lemma readIter_malformed (bad : string) (m0 : Metrics) (e : DecodeError)
      (w : World) :
  Unmarshal bad zeroMetrics = (m0, Some e) ->
  readIter (mkRead bad None) w = Ret true (addLog [LogUnmarshalError e] w).
Proof. intros H. unfold readIter. simpl. now rewrite H. Qed.

Lemma readIter_wellformed (good : string) (m : Metrics) (w : World) :
  Unmarshal good zeroMetrics = (m, None) ->
  readIter (mkRead good None) w
  = (updateMenuItems m ;; ret true) (addLog [LogReceived m] w).
Proof. intros H. unfold readIter. simpl. now rewrite H. Qed.

Lemma readIter_failure (data : string) (e : OSError) (w : World) :
  readIter (mkRead data (Some e)) w = Ret false (addLog [LogReadError e] w).
Proof. reflexivity. Qed.

Lemma addLog_addLog (l1 l2 : list LogLine) (w : World) :
  addLog l2 (addLog l1 w) = addLog (l1 ++ l2) w.
Proof. unfold addLog. simpl. now rewrite <- app_assoc. Qed.

(** C2.  A reader that gets a message whose decoding fails and then a
    message that decodes to [m]: the first adds the line of the decoding
    error to the log and changes nothing else, so the reader stays among
    the readers, its connection open; the two together come to one call of
    [updateMenuItems], on [m], after which the reader is blocked in its
    next read; and [m] is the one snapshot handed on. *)
Theorem malformed_then_wellformed
        (bad good : string) (m0 m : Metrics) (e : DecodeError)
        (c : nat) (w : World) :
  Unmarshal bad zeroMetrics = (m0, Some e) ->
  Unmarshal good zeroMetrics = (m, None) ->
  readerTurn c (mkRead bad None) w = Ret tt (addLog [LogUnmarshalError e] w)
  /\ handleConnection [mkRead bad None; mkRead good None] w
     = (updateMenuItems m ;; ret Blocked)
         (addLog [LogUnmarshalError e; LogReceived m] w)
  /\ published
       (logs (worldOf
                (handleConnection [mkRead bad None; mkRead good None] w)))
     = published (logs w) ++ [m].
Proof.
  intros Hbad Hgood.
  assert (Hrun : handleConnection [mkRead bad None; mkRead good None] w
                 = (updateMenuItems m ;; ret Blocked)
                     (addLog [LogUnmarshalError e; LogReceived m] w)).
  { simpl handleConnection. unfold bind at 1.
    rewrite (readIter_malformed bad m0 e w Hbad).
    unfold bind at 1. rewrite (readIter_wellformed good m _ Hgood).
    rewrite addLog_addLog. simpl app. unfold bind, ret.
    rewrite updateMenuItems_eq. reflexivity. }
  split; [|split].
  - unfold readerTurn, bind. now rewrite (readIter_malformed bad m0 e w Hbad).
  - exact Hrun.
  - rewrite Hrun.
    pose proof (updateMenuItems_published m
                  (addLog [LogUnmarshalError e; LogReceived m] w)) as Hp.
    unfold bind, ret. rewrite updateMenuItems_eq in *. simpl worldOf in *.
    rewrite Hp. unfold addLog. simpl logs. now rewrite published_app.
Qed.

Lemma malformed_then_wellformed_example :
  readerTurn 0 (mkRead (dq "{bad") None) (boot NoEntry true)
  = Ret tt (addLog [LogUnmarshalError SyntaxError] (boot NoEntry true))
  /\ handleConnection
       [mkRead (dq "{bad") None; mkRead (dq "{'keypresses': 5}") None]
       (boot NoEntry true)
     = (updateMenuItems (mkMetrics 5 0 zeroFloat zeroFloat 0) ;; ret Blocked)
         (addLog [LogUnmarshalError SyntaxError;
                  LogReceived (mkMetrics 5 0 zeroFloat zeroFloat 0)]
                 (boot NoEntry true))
  /\ published
       (logs (worldOf
                (handleConnection
                   [mkRead (dq "{bad") None;
                    mkRead (dq "{'keypresses': 5}") None]
                   (boot NoEntry true))))
     = published (logs (boot NoEntry true))
       ++ [mkMetrics 5 0 zeroFloat zeroFloat 0].
Proof.
  apply (malformed_then_wellformed (dq "{bad") (dq "{'keypresses': 5}")
           zeroMetrics).
  - vm_compute. reflexivity.
  - vm_compute. reflexivity.
Defined.

(** C4.  When a read on the connection [c] fails (the end of the stream
    is such a failure), [handleConnection] logs the error and returns,
    whatever the connection would still deliver, without a call of
    [updateMenuItems].  In the process that takes the reader of [c] away
    and changes nothing else: the menu, the listener, the accept loop and
    the other readers are as before.  A connection that arrives then is
    accepted, gets a reader of its own, and what it delivers is decoded
    and handed to [updateMenuItems] as usual. *)
Theorem read_failure_ends_only_its_reader
        (c : nat) (data : string) (e : OSError) (more : list ReadResult)
        (w : World) :
  c ∈ readers w ->
  acceptor w = Accepting ->
  isListening w = true ->
  handleConnection (mkRead data (Some e) :: more) w
  = Ret Returned (addLog [LogReadError e] w)
  /\ step (EvRead c (mkRead data (Some e))) w
     = Some (Ret tt (afterReadError c e w))
  /\ (forall r, step (EvRead c r) (afterReadError c e w) = None)
  /\ step (EvAccept AcceptConn) (afterReadError c e w)
     = Some (Ret tt (afterAccept (afterReadError c e w)))
  /\ nextConn w ∈ readers (afterAccept (afterReadError c e w))
  /\ (forall good m,
        Unmarshal good zeroMetrics = (m, None) ->
        step (EvRead (nextConn w) (mkRead good None))
             (afterAccept (afterReadError c e w))
        = Some ((updateMenuItems m ;; ret tt)
                  (addLog [LogReceived m]
                     (afterAccept (afterReadError c e w))))).
Proof.
  intros Hc Hacc Hlst.
  assert (Hin : nextConn w ∈ readers (afterAccept (afterReadError c e w))).
  { simpl. set_solver. }
  split; [reflexivity|]. split; [|split; [|split; [|split]]].
  - unfold step. rewrite decide_True by exact Hc. reflexivity.
  - intros r. unfold step. rewrite decide_False; [reflexivity|].
    simpl. set_solver.
  - unfold step, isListening in *. simpl. rewrite Hacc.
    destruct (listener w) as [[|]|]; try discriminate Hlst. reflexivity.
  - exact Hin.
  - intros good m Hgood. unfold step.
    rewrite decide_True by exact Hin.
    unfold readerTurn, bind at 1.
    rewrite (readIter_wellformed good m _ Hgood).
    unfold bind, ret. now rewrite updateMenuItems_eq.
Qed.

Lemma read_failure_example :
  let w := afterAccept
             (worldOf (startup (boot (Entry true) true))) in
  handleConnection [mkRead EmptyString (Some EOF)] w
  = Ret Returned (addLog [LogReadError EOF] w)
  /\ step (EvRead 0 (mkRead EmptyString (Some EOF))) w
     = Some (Ret tt (afterReadError 0 EOF w))
  /\ (forall r, step (EvRead 0 r) (afterReadError 0 EOF w) = None)
  /\ step (EvAccept AcceptConn) (afterReadError 0 EOF w)
     = Some (Ret tt (afterAccept (afterReadError 0 EOF w)))
  /\ nextConn w ∈ readers (afterAccept (afterReadError 0 EOF w))
  /\ (forall good m,
        Unmarshal good zeroMetrics = (m, None) ->
        step (EvRead (nextConn w) (mkRead good None))
             (afterAccept (afterReadError 0 EOF w))
        = Some ((updateMenuItems m ;; ret tt)
                  (addLog [LogReceived m]
                     (afterAccept (afterReadError 0 EOF w))))).
Proof.
  apply (read_failure_ends_only_its_reader 0 EmptyString EOF []).
  - apply (bool_decide_unpack _). vm_compute. exact I.
  - reflexivity.
  - reflexivity.
Defined.

(** ** The invariant of onReady *)

Section Invariant.

Lemma Inv_core (w w' : World) : core w' = core w -> Inv w -> Inv w'.
Proof.
  unfold core, handles. intros [= Hpc Hk Hc Hd Hs Hf Hm] [].
  constructor; rewrite ?Hpc, ?Hk, ?Hc, ?Hd, ?Hs, ?Hf, ?Hm; assumption.
Qed.

Lemma validItem_alter (mn : list entry) (t : string) (i h : nat) :
  validItem mn h -> validItem (alter (retitle t) i mn) h.
Proof.
  intros (t0 & tip & Hh). unfold validItem.
  destruct (decide (i = h)) as [->|Hne].
  - rewrite list_lookup_alter, Hh. simpl. destruct (decide _); eauto.
  - rewrite list_lookup_alter_ne by exact Hne. eauto.
Qed.

Lemma validItem_rendered (m : Metrics) (k c d s : nat) (mn : list entry) (h : nat) :
  validItem mn h -> validItem (rendered m k c d s mn) h.
Proof. intros H. unfold rendered. now repeat apply validItem_alter. Qed.

Lemma length_rendered (m : Metrics) (k c d s : nat) (mn : list entry) :
  length (rendered m k c d s mn) = length mn.
Proof. unfold rendered. now rewrite !length_alter. Qed.

Lemma Inv_rendered (m : Metrics) (k c d s : nat) (w : World) :
  Inv w -> Inv (set_menu (rendered m k c d s (menu w)) w).
Proof.
  intros []. constructor; simpl; try assumption.
  - now rewrite length_rendered.
  - intros h H4 Hlen. rewrite length_rendered in Hlen.
    apply validItem_rendered; auto.
Qed.

Lemma Inv_updateMenuItems (m : Metrics) (w w' : World) :
  updateMenuItems m w = Ret tt w' -> Inv w -> Inv w'.
Proof.
  rewrite updateMenuItems_eq. intros [= <-] HI.
  destruct (isMenuInitialized w); [|now apply (Inv_core w)].
  destruct (mKeyPresses w), (mMouseClicks w), (mMouseDistance w),
    (mScrollSteps w); try now apply (Inv_core w).
  now apply Inv_rendered.
Qed.

Lemma Inv_readIter (r : ReadResult) (b : bool) (w w' : World) :
  readIter r w = Ret b w' -> Inv w -> Inv w'.
Proof.
  destruct r as [data [e|]].
  - rewrite readIter_failure. intros [= _ <-]. now apply Inv_core.
  - destruct (Unmarshal data zeroMetrics) as [m [e|]] eqn:Hd.
    + rewrite (readIter_malformed data m e w Hd).
      intros [= _ <-]. now apply Inv_core.
    + rewrite (readIter_wellformed data m w Hd).
      unfold bind, ret. rewrite updateMenuItems_eq. intros [= _ <-] HI.
      apply (Inv_updateMenuItems m (addLog [LogReceived m] w)).
      * now rewrite updateMenuItems_eq.
      * now apply (Inv_core w).
Qed.

Lemma validItem_snoc (mn : list entry) (x : entry) (h : nat) :
  validItem mn h -> validItem (mn ++ [x]) h.
Proof.
  intros (t & tip & Hh). exists t, tip.
  rewrite lookup_app_l; [exact Hh|]. now apply lookup_lt_Some in Hh.
Qed.

Lemma items_snoc_item (mn : list entry) (t tip : string) :
  (forall h, (h < 4)%nat -> (h < length mn)%nat -> validItem mn h) ->
  forall h, (h < 4)%nat -> (h < length (mn ++ [Item t tip]))%nat ->
            validItem (mn ++ [Item t tip]) h.
Proof.
  intros Hmn h H4 Hlen. rewrite length_app in Hlen. simpl in Hlen.
  destruct (decide (h < length mn)%nat) as [Hlt|Hge].
  - apply validItem_snoc. auto.
  - assert (h = length mn) as -> by lia.
    exists t, tip. now rewrite list_lookup_middle.
Qed.

Lemma items_snoc_full (mn : list entry) (x : entry) :
  (4 <= length mn)%nat ->
  (forall h, (h < 4)%nat -> (h < length mn)%nat -> validItem mn h) ->
  forall h, (h < 4)%nat -> (h < length (mn ++ [x]))%nat ->
            validItem (mn ++ [x]) h.
Proof. intros Hfull Hmn h H4 _. apply validItem_snoc, Hmn; lia. Qed.

(** Each statement of [onReady] keeps the invariant. *)
Lemma Inv_onReadyTurn (s : M unit) (w w' : World) :
  onReady_stmts !! readyPc w = Some s ->
  onReadyTurn s w = Ret tt w' -> Inv w -> Inv w'.
Proof.
  intros Hs Hrun [Hpc Hk Hc Hd Hsc Hf Hlen Hit].
  destruct w as [k c d sc l i mn tt' tp sf bp ac rd nc pc mq qw qr lg].
  simpl in *.
  do 12 (destruct pc as [|pc];
         [ injection Hs as <-; cbn in Hrun; injection Hrun as <-;
           constructor; simpl; try assumption;
           try first [ apply items_snoc_item; assumption
                     | apply items_snoc_full;
                       [rewrite Hlen; simpl; lia | assumption] ];
           rewrite ?length_app, ?Hlen; simpl;
           try reflexivity; try assumption; lia
         | ]).
  discriminate Hs.
Qed.

Lemma cleanup_core (w w' : World) : cleanup w = Ret tt w' -> core w' = core w.
Proof.
  destruct w as [k c d sc l i mn tt' tp sf bp ac rd nc pc mq qw qr lg].
  destruct l as [[|]|], sf as [|[|]]; cbn; intros [= <-]; reflexivity.
Qed.

Lemma quitClicked_eq (w : World) :
  quitClicked w =
  match cleanup (addLog [LogQuitClicked] w) with
  | Ret _ w1 => Ret tt (set_quitRequested true w1)
  | Halt h w1 => Halt h w1
  end.
Proof. reflexivity. Qed.

Lemma onExit_eq (w : World) :
  (onExit ;; halts Exited) w =
  match cleanup (addLog [LogOnExitCalled] w) return result unit with
  | Ret _ w1 => Halt Exited w1
  | Halt h w1 => Halt h w1
  end.
Proof. reflexivity. Qed.

(** Each event keeps the invariant. *)
Lemma Inv_step (e : Event) (w w' : World) :
  step e w = Some (Ret tt w') -> Inv w -> Inv w'.
Proof.
  destruct e as [|r|c r| | |]; unfold step.
  - destruct (acceptor w); try discriminate.
    pose proof (bind_outcome w) as Hb. intros [= Hrun] HI.
    apply (Inv_core w); [|exact HI].
    clear Hb HI. revert Hrun.
    destruct w as [k c d sc l i mn tt' tp sf bp ac rd nc pc mq qw qr lg].
    destruct sf as [|[|]], bp; cbn; intros [= <-]; reflexivity.
  - destruct (acceptor w); try discriminate.
    destruct r as [|e].
    + destruct (isListening w); [|discriminate].
      rewrite acceptIter_total. intros [= <-]. now apply Inv_core.
    + rewrite acceptIter_total. intros [= <-]. now apply Inv_core.
  - destruct (decide (c ∈ readers w)); [|discriminate].
    unfold readerTurn, bind.
    destruct (readIter r w) as [b w1|h w1] eqn:Hr; [|discriminate].
    intros Hrun HI. pose proof (Inv_readIter r b w w1 Hr HI) as HI1.
    destruct b; injection Hrun as <-; [exact HI1|].
    now apply (Inv_core w1).
  - destruct (onReady_stmts !! readyPc w) as [s|] eqn:Hs; [|discriminate].
    intros [= Hrun]. now apply (Inv_onReadyTurn s).
  - destruct (quitWatcher w && negb (quitRequested w)); [|discriminate].
    rewrite quitClicked_eq.
    destruct (cleanup (addLog [LogQuitClicked] w)) as [[] w1|h w1] eqn:Hc;
      [|intros [=]].
    intros [= <-] HI. apply cleanup_core in Hc.
    apply (Inv_core w); [|exact HI]. unfold core in *. simpl in *.
    exact Hc.
  - destruct (quitRequested w); [|discriminate].
    rewrite onExit_eq.
    destruct (cleanup (addLog [LogOnExitCalled] w)) as [[] w1|h w1];
      discriminate.
Qed.

Lemma Inv_boot (file : fsentry) (permitted : bool) (w : World) :
  main (boot file permitted) = Ret tt w -> Inv w.
Proof.
  destruct file as [|[|]]; cbn; intros [= <-];
    constructor; simpl; try reflexivity; try lia.
Qed.

(** The invariant holds in every state of a run. *)
Lemma reachable_Inv (w : World) : reachable w -> Inv w.
Proof.
  induction 1 as [file permitted w Hmain | w e w' _ IH Hstep].
  - exact (Inv_boot file permitted w Hmain).
  - exact (Inv_step e w w' Hstep IH).
Qed.

End Invariant.

(** ** Rendering *)

Lemma run_reachable (es : list Event) :
  forall w w', reachable w -> run es w = Ret tt w' -> reachable w'.
Proof.
  induction es as [|e es IH]; intros w w' Hw; simpl.
  - now intros [= <-].
  - destruct (step e w) as [[[] w1|h w1]|] eqn:Hs.
    + apply IH. exact (reach_step w e w1 Hw Hs).
    + discriminate.
    + now apply IH.
Qed.

Lemma readyWorld_reachable : reachable readyWorld.
Proof.
  apply (run_reachable (repeat EvOnReady 12)
           (worldOf (main (boot NoEntry true)))).
  - apply (reach_main NoEntry true). vm_compute. reflexivity.
  - vm_compute. reflexivity.
Defined.

Lemma validItem_inv (mn : list entry) (h : nat) :
  validItem mn h -> exists t tip, mn !! h = Some (Item t tip).
Proof. exact id. Qed.

(** On a menu whose first four entries are items, the four statements
    leave the four titles of the snapshot. *)
Lemma display_rendered (m : Metrics) (mn : list entry) :
  (forall h, (h < 4)%nat -> validItem mn h) ->
  List.map (titleOf (rendered m 0 1 2 3 mn)) [Some 0; Some 1; Some 2; Some 3]%nat
  = List.map Some (titles m).
Proof.
  intros Hv.
  destruct (Hv 0%nat ltac:(lia)) as (t0 & p0 & H0).
  destruct (Hv 1%nat ltac:(lia)) as (t1 & p1 & H1).
  destruct (Hv 2%nat ltac:(lia)) as (t2 & p2 & H2).
  destruct (Hv 3%nat ltac:(lia)) as (t3 & p3 & H3).
  destruct mn as [|e0 [|e1 [|e2 [|e3 rest]]]]; try discriminate.
  simpl in H0, H1, H2, H3.
  injection H0 as ->. injection H1 as ->. injection H2 as ->. injection H3 as ->.
  reflexivity.
Qed.

(** C10.  In every state of a run in which [isMenuInitialized] is true,
    the four pointers are not nil: they were assigned, to the first four
    items of the menu, before the flag was set.  So [updateMenuItems]
    takes neither of its two early returns there: it logs nothing, and
    it sets the four titles, after which the menu shows the four titles
    of the snapshot. *)
Theorem initialized_items_not_nil (w : World) (metrics : Metrics) :
  reachable w ->
  isMenuInitialized w = true ->
  handles w = [Some 0; Some 1; Some 2; Some 3]%nat
  /\ Forall (fun h => isNil h = false) (handles w)
  /\ updateMenuItems metrics w
     = Ret tt (set_menu (rendered metrics 0 1 2 3 (menu w)) w)
  /\ logs (worldOf (updateMenuItems metrics w)) = logs w
  /\ display (worldOf (updateMenuItems metrics w))
     = List.map Some (titles metrics).
Proof.
  intros Hreach Hflag.
  destruct (reachable_Inv w Hreach) as [Hpc Hk Hc Hd Hs Hf Hlen Hit].
  rewrite Hflag in Hf. symmetry in Hf. apply Nat.ltb_lt in Hf.
  assert (Hh : handles w = [Some 0; Some 1; Some 2; Some 3]%nat).
  { unfold handles. rewrite Hk, Hc, Hd, Hs. unfold assignedAt.
    repeat match goal with
           | |- context [(?a <? readyPc w)%nat] =>
             replace (a <? readyPc w)%nat with true
               by (symmetry; apply Nat.ltb_lt; lia)
           end.
    reflexivity. }
  assert (Hupd : updateMenuItems metrics w
                 = Ret tt (set_menu (rendered metrics 0 1 2 3 (menu w)) w)).
  { rewrite updateMenuItems_eq, Hflag.
    injection Hh as -> -> -> ->. reflexivity. }
  split; [exact Hh|]. split; [|split; [exact Hupd|split]].
  - rewrite Hh. repeat constructor.
  - now rewrite Hupd.
  - rewrite Hupd. unfold display. simpl worldOf.
    change (handles (set_menu _ w)) with (handles w). rewrite Hh. simpl menu.
    apply display_rendered. intros h H4. apply Hit; [exact H4|].
    rewrite Hlen.
    replace (readyPc w) with (11 + (readyPc w - 11))%nat by lia.
    simpl. lia.
Qed.

Lemma initialized_items_not_nil_example :
  handles readyWorld = [Some 0; Some 1; Some 2; Some 3]%nat
  /\ Forall (fun h => isNil h = false) (handles readyWorld)
  /\ updateMenuItems zeroMetrics readyWorld
     = Ret tt (set_menu (rendered zeroMetrics 0 1 2 3 (menu readyWorld))
                        readyWorld)
  /\ logs (worldOf (updateMenuItems zeroMetrics readyWorld)) = logs readyWorld
  /\ display (worldOf (updateMenuItems zeroMetrics readyWorld))
     = List.map Some (titles zeroMetrics).
Proof.
  apply (initialized_items_not_nil readyWorld zeroMetrics).
  - exact readyWorld_reachable.
  - vm_compute. reflexivity.
Defined.

(* ===================================================================== *)
(** * Further properties of the program *)
(* ===================================================================== *)

(** ** handleConnection over any reads *)

Lemma sameButMenuAndLogs_refl (w : World) : sameButMenuAndLogs w w.
Proof. now destruct w. Qed.

Lemma sameButMenuAndLogs_trans (w1 w2 w3 : World) :
  sameButMenuAndLogs w1 w2 -> sameButMenuAndLogs w2 w3 ->
  sameButMenuAndLogs w1 w3.
Proof.
  unfold sameButMenuAndLogs. intros H12 H23. rewrite H23 at 1.
  rewrite H12 at 1. now destruct w1.
Qed.

Lemma sameButMenuAndLogs_addLog (ls : list LogLine) (w : World) :
  sameButMenuAndLogs w (addLog ls w).
Proof. now destruct w. Qed.

Lemma updateMenuItems_frame (m : Metrics) (w : World) :
  sameButMenuAndLogs w (worldOf (updateMenuItems m w)).
Proof.
  rewrite updateMenuItems_eq. simpl worldOf.
  destruct (isMenuInitialized w); [|apply sameButMenuAndLogs_addLog].
  destruct (mKeyPresses w), (mMouseClicks w), (mMouseDistance w),
    (mScrollSteps w); try apply sameButMenuAndLogs_addLog.
  now destruct w.
Qed.

(** One turn of the loop: it never ends the process, it goes on unless
    the read failed, and it hands on the snapshot of its message if that
    decodes. *)
Lemma readIter_publishes (r : ReadResult) (w : World) :
  exists w',
    readIter r w = Ret (isNil (rd_err r)) w'
    /\ published (logs w') = published (logs w) ++ decoded [r]
    /\ sameButMenuAndLogs w w'.
Proof.
  destruct r as [data [e|]].
  - exists (addLog [LogReadError e] w). rewrite readIter_failure.
    split; [reflexivity|split].
    + simpl. rewrite published_app. reflexivity.
    + apply sameButMenuAndLogs_addLog.
  - simpl rd_err. simpl decoded.
    destruct (Unmarshal data zeroMetrics) as [m [e|]] eqn:Hd.
    + exists (addLog [LogUnmarshalError e] w).
      rewrite (readIter_malformed data m e w Hd).
      split; [reflexivity|split].
      * simpl. rewrite published_app. reflexivity.
      * apply sameButMenuAndLogs_addLog.
    + exists (worldOf (updateMenuItems m (addLog [LogReceived m] w))).
      rewrite (readIter_wellformed data m w Hd).
      unfold bind, ret. rewrite updateMenuItems_eq. simpl worldOf.
      split; [reflexivity|]. split.
      * pose proof (updateMenuItems_published m (addLog [LogReceived m] w)) as Hp.
        rewrite updateMenuItems_eq in Hp. simpl worldOf in Hp. rewrite Hp.
        simpl. now rewrite published_app.
      * apply (sameButMenuAndLogs_trans _ (addLog [LogReceived m] w)).
        -- apply sameButMenuAndLogs_addLog.
        -- pose proof (updateMenuItems_frame m (addLog [LogReceived m] w)) as Hf.
           now rewrite updateMenuItems_eq in Hf.
Qed.

Lemma decoded_cons (r : ReadResult) (rest : list ReadResult) :
  decoded (r :: rest) =
  decoded [r] ++ (if isNil (rd_err r) then decoded rest else []).
Proof.
  simpl. destruct (rd_err r); [reflexivity|]. simpl.
  destruct (Unmarshal (rd_data r) zeroMetrics) as [m [e|]]; reflexivity.
Qed.

(** X1.  Over any reads, [handleConnection] never ends the process.  It
    returns if and only if one of the reads fails, and is blocked in its
    next read otherwise.  The snapshots it hands to [updateMenuItems] are
    those of the messages that decode, in their order, up to the first
    read that fails: a message that does not decode is passed over, and
    what comes after a failed read is never looked at.  Nothing changes
    but the menu and the log. *)
Theorem handleConnection_publishes (reads : list ReadResult) :
  forall w : World,
  exists w',
    handleConnection reads w
    = Ret (if failed reads then Returned else Blocked) w'
    /\ published (logs w') = published (logs w) ++ decoded reads
    /\ sameButMenuAndLogs w w'.
Proof.
  induction reads as [|r rest IH]; intros w.
  - exists w. simpl. rewrite app_nil_r.
    split; [reflexivity|split; [reflexivity|]].
    apply sameButMenuAndLogs_refl.
  - destruct (readIter_publishes r w) as (w1 & Hr & Hp1 & Hf1).
    simpl handleConnection. unfold bind at 1. rewrite Hr.
    rewrite decoded_cons. unfold failed. simpl existsb.
    destruct (isNil (rd_err r)); simpl negb; simpl orb; cbv iota.
    + destruct (IH w1) as (w' & Hrun & Hp & Hf).
      exists w'. split; [exact Hrun|]. split.
      * rewrite Hp, Hp1. now rewrite <- app_assoc.
      * exact (sameButMenuAndLogs_trans _ _ _ Hf1 Hf).
    + exists w1. split; [reflexivity|]. split; [|exact Hf1].
      rewrite Hp1. now rewrite app_nil_r.
Qed.

(** ** What the menu shows *)

Lemma Ready_handles (w : World) :
  Ready w ->
  handles w = [Some 0; Some 1; Some 2; Some 3]%nat
  /\ (forall h, (h < 4)%nat -> validItem (menu w) h)
  /\ length (menu w) = 6%nat.
Proof.
  intros [[Hpc Hk Hc Hd Hs Hf Hlen Hit] Hflag].
  rewrite Hflag in Hf. symmetry in Hf. apply Nat.ltb_lt in Hf.
  assert (Hl : length (menu w) = 6%nat).
  { rewrite Hlen. replace (readyPc w) with (11 + (readyPc w - 11))%nat by lia.
    reflexivity. }
  split; [|split; [|exact Hl]].
  - unfold handles. rewrite Hk, Hc, Hd, Hs. unfold assignedAt.
    repeat match goal with
           | |- context [(?a <? readyPc w)%nat] =>
             replace (a <? readyPc w)%nat with true
               by (symmetry; apply Nat.ltb_lt; lia)
           end.
    reflexivity.
  - intros h H4. apply Hit; [exact H4|]. rewrite Hl. lia.
Qed.

Lemma Ready_updateMenuItems (m : Metrics) (w : World) :
  Ready w ->
  updateMenuItems m w = Ret tt (set_menu (rendered m 0 1 2 3 (menu w)) w)
  /\ Ready (set_menu (rendered m 0 1 2 3 (menu w)) w)
  /\ display (set_menu (rendered m 0 1 2 3 (menu w)) w)
     = List.map Some (titles m).
Proof.
  intros HR. destruct (Ready_handles w HR) as (Hh & Hv & _).
  destruct HR as [HI Hflag]. split; [|split].
  - rewrite updateMenuItems_eq, Hflag. unfold handles in Hh.
    injection Hh as -> -> -> ->. reflexivity.
  - split; [now apply Inv_rendered | exact Hflag].
  - unfold display. change (handles (set_menu _ w)) with (handles w).
    rewrite Hh. simpl menu. now apply display_rendered.
Qed.

Lemma Ready_addLog (ls : list LogLine) (w : World) :
  Ready w -> Ready (addLog ls w).
Proof. intros [HI Hf]. split; [now apply (Inv_core w) | exact Hf]. Qed.

Lemma reachable_Ready (w : World) :
  reachable w -> isMenuInitialized w = true -> Ready w.
Proof. intros Hr Hf. split; [now apply reachable_Inv | exact Hf]. Qed.

Lemma handleConnection_display (reads : list ReadResult) :
  forall w : World,
  Ready w ->
  display (worldOf (handleConnection reads w))
  = match last (decoded reads) with
    | Some m => List.map Some (titles m)
    | None => display w
    end.
Proof.
  induction reads as [|[data [e|]] rest IH]; intros w HR.
  - reflexivity.
  - simpl handleConnection. unfold bind. rewrite readIter_failure. reflexivity.
  - simpl handleConnection. unfold bind at 1. simpl decoded.
    destruct (Unmarshal data zeroMetrics) as [m [e|]] eqn:Hd.
    + rewrite (readIter_malformed data m e w Hd).
      rewrite (IH _ (Ready_addLog _ w HR)). reflexivity.
    + rewrite (readIter_wellformed data m w Hd). unfold bind, ret.
      destruct (Ready_updateMenuItems m _ (Ready_addLog [LogReceived m] w HR))
        as (Hupd & HR' & Hdisp).
      rewrite Hupd. rewrite (IH _ HR'). rewrite last_cons.
      destruct (last (decoded rest)); [reflexivity | exact Hdisp].
Qed.

(** X2.  In a state of a run in which [onReady] has set the flag, after
    any reads on a connection the menu shows the four titles of the
    last snapshot handed on, whatever it showed before and whatever the
    earlier snapshots were: each snapshot overwrites all four titles.  If
    no message decoded, the titles are as they were. *)
Theorem menu_shows_last_snapshot (reads : list ReadResult) (w : World) :
  reachable w ->
  isMenuInitialized w = true ->
  display (worldOf (handleConnection reads w))
  = match last (decoded reads) with
    | Some m => List.map Some (titles m)
    | None => display w
    end.
Proof.
  intros Hr Hf. apply handleConnection_display. now apply reachable_Ready.
Qed.

Lemma menu_shows_last_snapshot_example :
  display (worldOf (handleConnection
                      [mkRead (dq "{'keypresses': 5, 'scroll_steps': 2}") None;
                       mkRead (dq "{bad") None;
                       mkRead (dq "{'mouse_clicks': 7}") None;
                       mkRead EmptyString (Some EOF);
                       mkRead (dq "{'keypresses': 9}") None]
                      readyWorld))
  = [Some "Keypresses: 0"; Some "Mouse Clicks: 7";
     Some "Mouse Travel: 0.00 in / 0.00 mi"; Some "Scroll Steps: 0"]%string.
Proof.
  rewrite (menu_shows_last_snapshot _ readyWorld readyWorld_reachable);
    vm_compute; reflexivity.
Defined.

(** ** Which messages are handed on *)

(** An error that is saved stays. *)
Lemma object_keeps_error (members : list (string * json)) :
  forall m e, snd (object members m (Some e)) = Some e.
Proof.
  induction members as [|[key v] rest IH]; intros m e; [reflexivity|].
  simpl. destruct (findField key) as [f|]; [|apply IH].
  destruct (store f v m) as [m' err]. apply IH.
Qed.

(** Storing fails on the values that are neither null nor convertible. *)
Lemma store_error (f : field) (v : json) (m : Metrics) :
  snd (store f v m) = None <-> isNull v = true \/ convertible f v = true.
Proof.
  destruct v as [ | b | n | s | l | l ]; simpl;
    try (split; [discriminate | intros [H|H]; discriminate H]).
  - split; auto.
  - destruct (isFloatField f).
    + destruct (parseFloat n) as [x|]; simpl.
      * split; auto.
      * split; [discriminate|].
        intros [H|H]; discriminate H.
    + destruct (parseInt n) as [z|]; simpl.
      * split; auto.
      * split; [discriminate|].
        intros [H|H]; discriminate H.
Qed.

Lemma object_no_error (members : list (string * json)) :
  forall m,
    snd (object members m None) = None ->
    forall f v, v ∈ given f members -> convertible f v = true.
Proof.
  induction members as [|[key v] rest IH]; intros m Hok f v' Hin.
  - simpl in Hin. now apply elem_of_nil in Hin.
  - destruct (findField key) as [g|] eqn:Hk.
    + rewrite (object_known g) in Hok by exact Hk.
      destruct (snd (store g v m)) as [e|] eqn:Hs.
      * simpl in Hok. now rewrite object_keeps_error in Hok.
      * simpl in Hok. rewrite given_cons, Hk in Hin.
        destruct (bool_decide (Some g = Some f) && negb (isNull v)) eqn:Hb.
        -- apply elem_of_cons in Hin as [->|Hin]; [|now apply (IH _ Hok)].
           apply andb_true_iff in Hb as [Hgf Hnn].
           apply bool_decide_eq_true in Hgf. injection Hgf as ->.
           apply store_error in Hs as [Hs|Hs]; [|exact Hs].
           rewrite Hs in Hnn. discriminate.
        -- now apply (IH _ Hok).
    + rewrite object_unknown in Hok by exact Hk.
      rewrite given_unknown in Hin by exact Hk. now apply (IH _ Hok).
Qed.

(** X3.  A message that is a JSON object decodes without an error if and
    only if every value it gives to a field is one that the type of the
    field can hold.  So one value of the wrong type, or out of range,
    withholds the whole snapshot: the reader logs the error and hands
    nothing on, also not the fields that are right. *)
Theorem object_decodes_iff_well_typed
        (data : string) (members : list (string * json)) (w : World) :
  parse data = Some (JObject members) ->
  (snd (Unmarshal data zeroMetrics) = None <-> wellTyped members = true)
  /\ (wellTyped members = false ->
      exists e, readIter (mkRead data None) w
                = Ret true (addLog [LogUnmarshalError e] w)).
Proof.
  intros Hparse.
  assert (Hiff : snd (Unmarshal data zeroMetrics) = None
                 <-> wellTyped members = true).
  { unfold Unmarshal. rewrite Hparse. simpl value. split.
    - intros Hok. apply wellTyped_spec. now apply (object_no_error _ zeroMetrics).
    - intros Hwt.
      destruct (object_wellTyped members zeroMetrics None
                  (proj1 (wellTyped_spec members) Hwt)) as (m & Hobj & _).
      now rewrite Hobj. }
  split; [exact Hiff|]. intros Hwt.
  destruct (Unmarshal data zeroMetrics) as [m [e|]] eqn:Hd.
  - exists e. now apply (readIter_malformed data m).
  - simpl in Hiff. rewrite (proj1 Hiff eq_refl) in Hwt. discriminate.
Qed.

Lemma object_decodes_iff_well_typed_example :
  (snd (Unmarshal (dq "{'keypresses': 5.0, 'mouse_clicks': 3}") zeroMetrics)
   = None
   <-> wellTyped [("keypresses"%string,
                   JNumber (NumLit false 5 0 1 None));
                  ("mouse_clicks"%string, JNumber (numStart false 3))] = true)
  /\ (wellTyped [("keypresses"%string,
                   JNumber (NumLit false 5 0 1 None));
                  ("mouse_clicks"%string, JNumber (numStart false 3))] = false ->
      exists e, readIter (mkRead (dq "{'keypresses': 5.0, 'mouse_clicks': 3}")
                                 None) readyWorld
                = Ret true (addLog [LogUnmarshalError e] readyWorld)).
Proof.
  apply (object_decodes_iff_well_typed
           (dq "{'keypresses': 5.0, 'mouse_clicks': 3}")).
  vm_compute. reflexivity.
Defined.

(** X4.  A message that decodes and gives no value to any field hands on
    the zero snapshot: the message null, the empty object, an object of
    unknown keys or of null values.  In a state of a run in which
    [onReady] has set the flag the menu then shows zeros, whatever it
    showed before. *)
Theorem empty_snapshot_resets_menu (data : string) (v : json) (w : World) :
  parse data = Some v ->
  match v with
  | JNull => True
  | JObject members => forall f, given f members = []
  | _ => False
  end ->
  Unmarshal data zeroMetrics = (zeroMetrics, None)
  /\ (reachable w -> isMenuInitialized w = true ->
      display (worldOf (handleConnection [mkRead data None] w))
      = List.map Some (titles zeroMetrics)).
Proof.
  intros Hparse Hv.
  assert (Hd : Unmarshal data zeroMetrics = (zeroMetrics, None)).
  { destruct v as [ | b | n | s | l | members ]; try contradiction.
    - unfold Unmarshal. now rewrite Hparse.
    - assert (Hwt : wellTyped members = true).
      { apply wellTyped_spec. intros f v' Hin. rewrite Hv in Hin.
        now apply elem_of_nil in Hin. }
      destruct (decode_well_typed_snapshot data members Hparse Hwt)
        as (m & Hm & Hint & Hfl & _).
      rewrite Hm. f_equal. destruct m as [k c di dm sc].
      pose proof (Hint FKeypresses eq_refl) as Hk.
      pose proof (Hint FMouseClicks eq_refl) as Hc.
      pose proof (Hint FScrollSteps eq_refl) as Hs.
      pose proof (Hfl FMouseDistanceIn eq_refl) as Hi.
      pose proof (Hfl FMouseDistanceMi eq_refl) as Hmi.
      rewrite Hv in Hk, Hc, Hs, Hi, Hmi. simpl in Hk, Hc, Hs, Hi, Hmi.
      now subst. }
  split; [exact Hd|]. intros Hr Hf.
  rewrite (menu_shows_last_snapshot _ w Hr Hf). simpl. now rewrite Hd.
Qed.

Lemma empty_snapshot_resets_menu_example :
  Unmarshal (dq "{'x': 1, 'keypresses': null}") zeroMetrics = (zeroMetrics, None)
  /\ (reachable readyWorld -> isMenuInitialized readyWorld = true ->
      display (worldOf (handleConnection
                          [mkRead (dq "{'x': 1, 'keypresses': null}") None]
                          readyWorld))
      = List.map Some (titles zeroMetrics)).
Proof.
  apply (empty_snapshot_resets_menu
           (dq "{'x': 1, 'keypresses': null}")
           (JObject [("x"%string, JNumber (numStart false 1));
                     ("keypresses"%string, JNull)])).
  - vm_compute. reflexivity.
  - intros f. destruct f; vm_compute; reflexivity.
Defined.

(** ** The socket, the goroutines, and how the process ends *)

Lemma Sys_plumbing (w w' : World) : plumbing w' = plumbing w -> Sys w -> Sys w'.
Proof.
  unfold plumbing. intros [= Hl Hs Hb Ha Hr Hn] [].
  constructor; unfold isListening in *;
    rewrite ?Hl, ?Hs, ?Ha, ?Hr, ?Hn; assumption.
Qed.

Lemma same_plumbing (w w' : World) :
  sameButMenuAndLogs w w' -> plumbing w' = plumbing w.
Proof. unfold sameButMenuAndLogs. intros ->. now destruct w. Qed.

(** The statements of [onReady] complete, and leave the socket and the
    goroutines alone. *)
Lemma onReady_stmt_runs (pc : nat) (s : M unit) (w : World) :
  onReady_stmts !! pc = Some s ->
  exists w', s w = Ret tt w' /\ plumbing w' = plumbing w.
Proof.
  intros Hs.
  destruct w as [k c d sc l i mn tt' tp sf bp ac rd nc rp mq qw qr lg].
  do 12 (destruct pc as [|pc];
         [ injection Hs as <-; eexists; split; reflexivity | ]).
  discriminate Hs.
Qed.

Lemma cleanup_runs (w : World) :
  exists w',
    cleanup w = Ret tt w'
    /\ isListening w' = false
    /\ (sockFile w <> Entry false -> sockFile w' = NoEntry)
    /\ (listener w' <> None <-> listener w <> None)
    /\ (acceptor w', readers w', nextConn w', bindPermitted w',
        quitRequested w')
       = (acceptor w, readers w, nextConn w, bindPermitted w, quitRequested w).
Proof.
  destruct w as [k c d sc l i mn tt' tp sf bp ac rd nc rp mq qw qr lg].
  destruct l as [[|]|], sf as [|[|]]; eexists; (split; [reflexivity|]);
    simpl; repeat split; try congruence; try discriminate.
Qed.

Lemma Sys_cleanup (w w' : World) : cleanup w = Ret tt w' -> Sys w -> Sys w'.
Proof.
  intros Hc [Hfile Hrd Hl Hcn Hst].
  destruct (cleanup_runs w) as (w1 & Hc1 & Hnl & Hsf & Hln & Heq).
  rewrite Hc in Hc1. injection Hc1 as <-.
  injection Heq as Ha Hr Hn Hb Hq.
  constructor; rewrite ?Hnl, ?Ha, ?Hr, ?Hn; try assumption.
  - apply Hsf. rewrite Hfile. destruct (isListening w); discriminate.
  - now rewrite Hl, Hln.
Qed.

Lemma Sys_addLog (ls : list LogLine) (w : World) : Sys w -> Sys (addLog ls w).
Proof. apply Sys_plumbing. now destruct w. Qed.

Lemma Sys_step (e : Event) (w w' : World) :
  step e w = Some (Ret tt w') -> Sys w -> Sys w'.
Proof.
  destruct e as [|r|c r| | |]; unfold step.
  - destruct (acceptor w) eqn:Hacc; try discriminate.
    intros [= Hrun] [Hfile Hrd Hl Hcn Hst].
    pose proof (bind_outcome w) as Hb. rewrite Hrun in Hb.
    destruct Hb as (Hno & Hperm & Hl' & Hsf' & Hacc').
    assert (Hrest : readers w' = readers w /\ nextConn w' = nextConn w).
    { clear - Hrun Hno Hperm. revert Hrun.
      destruct w as [k c d sc l i mn tt' tp sf bp ac rd nc rp mq qw qr lg].
      simpl in Hno, Hperm. subst sf bp. cbn. now intros [= <-]. }
    destruct Hrest as [Hr Hn].
    constructor; unfold isListening; rewrite ?Hl', ?Hr, ?Hn;
      try assumption; try (rewrite Hacc'; try discriminate).
    + split; [discriminate | reflexivity].
    + reflexivity.
  - destruct (acceptor w) eqn:Hacc; try discriminate.
    intros Hrun [Hfile Hrd Hl Hcn Hst].
    assert (Hw' : w' = if isConn r then afterAccept w
                       else addLog [acceptLine r] w).
    { destruct r as [|e].
      - destruct (isListening w); [|discriminate].
        rewrite acceptIter_total in Hrun. now injection Hrun as <-.
      - rewrite acceptIter_total in Hrun. now injection Hrun as <-. }
    subst w'. destruct (isConn r).
    + constructor; unfold isListening in *; simpl; try assumption.
      * intros c Hc. apply elem_of_union in Hc as [Hc|Hc].
        -- apply Hrd in Hc. lia.
        -- apply elem_of_singleton in Hc. lia.
      * intros _. exact Hacc.
    + apply Sys_addLog. now constructor.
  - destruct (decide (c ∈ readers w)); [|discriminate].
    unfold readerTurn, bind.
    destruct (readIter_publishes r w) as (w1 & Hr & _ & Hsame).
    rewrite Hr. apply same_plumbing in Hsame.
    intros Hrun HS. pose proof (Sys_plumbing w w1 Hsame HS) as HS1.
    destruct (isNil (rd_err r)); injection Hrun as <-; [exact HS1|].
    destruct HS1 as [Hfile Hrd Hl Hcn Hst].
    constructor; unfold isListening in *; simpl; try assumption.
    intros c' Hc'. apply Hrd. set_solver.
  - destruct (onReady_stmts !! readyPc w) as [s|] eqn:Hs; [|discriminate].
    unfold onReadyTurn, bind.
    destruct (onReady_stmt_runs _ s w Hs) as (w1 & Hrun1 & Hp).
    rewrite Hrun1. intros [= <-] HS.
    apply (Sys_plumbing w); [|exact HS]. rewrite <- Hp. now destruct w1.
  - destruct (quitWatcher w && negb (quitRequested w)); [|discriminate].
    rewrite quitClicked_eq.
    destruct (cleanup (addLog [LogQuitClicked] w)) as [[] w1|h w1] eqn:Hc;
      [|intros [=]].
    intros [= <-] HS.
    apply (Sys_plumbing w1 (set_quitRequested true w1)).
    + now destruct w1.
    + apply (Sys_cleanup _ _ Hc). now apply Sys_addLog.
  - destruct (quitRequested w); [|discriminate].
    rewrite onExit_eq.
    destruct (cleanup (addLog [LogOnExitCalled] w)) as [[] w1|h w1];
      discriminate.
Qed.

Lemma Sys_boot (file : fsentry) (permitted : bool) (w : World) :
  main (boot file permitted) = Ret tt w -> Sys w.
Proof.
  destruct file as [|[|]]; cbn; intros [= <-];
    constructor; simpl; try reflexivity; try discriminate; try lia;
    try (intros c Hc; now apply elem_of_empty in Hc);
    split; intros H; try discriminate H; now contradiction H.
Qed.

Lemma reachable_Sys (w : World) : reachable w -> Sys w.
Proof.
  induction 1 as [file permitted w Hmain | w e w' _ IH Hstep].
  - exact (Sys_boot file permitted w Hmain).
  - exact (Sys_step e w w' Hstep IH).
Qed.

Lemma servingWorld_reachable : reachable servingWorld.
Proof.
  apply (run_reachable (EvListen :: EvAccept AcceptConn :: repeat EvOnReady 12)
           (worldOf (main (boot (Entry true) true)))).
  - apply (reach_main (Entry true) true). vm_compute. reflexivity.
  - vm_compute. reflexivity.
Defined.



(** X6.  The process never panics.  [main] can end it only by
    [log.Fatalf], when the entry at the address cannot be removed; of
    the events only the bind of the listener can end it, by
    [log.Fatalf], and the return of [systray.Run], by the exit of
    [main]; every other event completes in every state.  No nil pointer
    is ever used: not in [cleanup], not in [updateMenuItems], in any
    state whatever. *)
Theorem process_never_panics :
  (forall file permitted,
     match main (boot file permitted) with
     | Halt h _ => h = Fatal /\ file = Entry false
     | Ret _ _ => True
     end)
  /\ (forall e w,
        match step e w with
        | Some (Halt h _) =>
          (e = EvListen /\ h = Fatal) \/ (e = EvExit /\ h = Exited)
        | _ => True
        end)
  /\ (forall es w,
        match run es w with
        | Halt h _ => h <> Panicked
        | Ret _ _ => True
        end).
Proof.
  assert (Hstep : forall e w,
             match step e w with
             | Some (Halt h _) =>
               (e = EvListen /\ h = Fatal) \/ (e = EvExit /\ h = Exited)
             | _ => True
             end).
  { intros e w. destruct e as [|r|c r| | |]; unfold step.
    - destruct (acceptor w); try exact I.
      pose proof (bind_outcome w) as Hb.
      destruct (startSocketListener_bind w) as [[] w'|h w']; [exact I|].
      left. now destruct Hb as [-> _].
    - destruct (acceptor w), r; try exact I;
        try destruct (isListening w); try exact I;
        now rewrite acceptIter_total.
    - destruct (decide (c ∈ readers w)); [|exact I].
      unfold readerTurn, bind.
      destruct (readIter_publishes r w) as (w1 & -> & _).
      now destruct (isNil (rd_err r)).
    - destruct (onReady_stmts !! readyPc w) as [s|] eqn:Hs; [|exact I].
      unfold onReadyTurn, bind.
      destruct (onReady_stmt_runs _ s w Hs) as (w1 & -> & _). exact I.
    - destruct (quitWatcher w && negb (quitRequested w)); [|exact I].
      rewrite quitClicked_eq.
      now destruct (cleanup_runs (addLog [LogQuitClicked] w)) as (w1 & -> & _).
    - destruct (quitRequested w); [|exact I].
      rewrite onExit_eq.
      destruct (cleanup_runs (addLog [LogOnExitCalled] w)) as (w1 & -> & _).
      right. now split. }
  split; [|split; [exact Hstep|]].
  - intros file permitted. destruct file as [|[|]]; cbn; auto.
  - induction es as [|e es IH]; intros w; simpl; [exact I|].
    pose proof (Hstep e w) as He.
    destruct (step e w) as [[[] w1|h w1]|]; try apply IH.
    destruct He as [[_ ->]|[_ ->]]; discriminate.
Qed.

(** X7.  In every state of a run the connections that have a reader
    are connections that the accept loop has numbered, so the next
    connection is a new one and takes the reader of none; and there is
    a reader only if the listener was bound and its goroutine is in the
    accept loop. *)
Theorem readers_are_accepted_connections (w : World) :
  reachable w ->
  (forall c, c ∈ readers w -> (c < nextConn w)%nat)
  /\ (nextConn w ∉ readers w)
  /\ (readers w <> ∅ -> acceptor w = Accepting /\ listener w <> None).
Proof.
  intros Hr. destruct (reachable_Sys w Hr) as [Hfile Hrd Hl Hcn Hst].
  split; [exact Hrd|]. split.
  - intros Hin. apply Hrd in Hin. lia.
  - intros Hne.
    assert (Hacc : acceptor w = Accepting).
    { apply Hcn. destruct (set_choose_L (readers w) Hne) as [c Hc].
      apply Hrd in Hc. lia. }
    split; [exact Hacc | now apply Hl].
Qed.

Lemma readers_are_accepted_connections_example :
  (forall c, c ∈ readers servingWorld -> (c < nextConn servingWorld)%nat)
  /\ (nextConn servingWorld ∉ readers servingWorld)
  /\ (readers servingWorld <> ∅ ->
      acceptor servingWorld = Accepting /\ listener servingWorld <> None).
Proof.
  exact (readers_are_accepted_connections servingWorld servingWorld_reachable).
Defined.
